(** * ZephyrCalculator: tokenizer, recursive-descent parser and evaluator

    A shallow embedding of [src/main.c]: the C strings become lists of
    characters, the [int]s become [Z] with the 32-bit wrap-around written
    out, the mutable [parserTok] cursor is passed explicitly, and the
    operations C leaves without a result (a write past a buffer, an integer
    division by zero) are explicit outcomes. *)

From Stdlib Require Import String.
From Stdlib Require Import ZArith List Ascii Bool Lia.
Import ListNotations.

Local Open Scope Z_scope.

(** ** C strings and the library functions the program calls *)

Module CString.

(** The terminator of every C string. *)
Definition NUL : ascii := "000"%char.

(** A [char*] is modelled by the content of the buffer it points to; the
    string it denotes stops at the first NUL (or at the end of the list,
    where the terminator is implicit). *)
Fixpoint cstring (buf : list ascii) : list ascii :=
  match buf with
  | [] => []
  | c :: rest => if (c =? NUL)%char then [] else c :: cstring rest
  end.

Definition strlen (buf : list ascii) : Z := Z.of_nat (length (cstring buf)).

(** [strchr(s, c)] used as a truth value: the terminator counts as a
    character of [s], so [strchr(s, '\0')] is not NULL. *)
Definition strchr (s : list ascii) (c : ascii) : bool :=
  existsb (Ascii.eqb c) (cstring s ++ [NUL]).

(** [buf[i]] for [0 <= i <= strlen buf]; at [i = strlen buf] this is the
    terminator. *)
Definition char_at (buf : list ascii) (i : Z) : ascii :=
  nth (Z.to_nat i) buf NUL.

(** The C type [int] of the target: 32 bits, two's complement. *)
Definition wrap_int (z : Z) : Z := (z + 2 ^ 31) mod 2 ^ 32 - 2 ^ 31.

Definition isdigit (c : ascii) : bool :=
  let n := Z.of_nat (nat_of_ascii c) in (48 <=? n) && (n <=? 57).

Definition digit_value (c : ascii) : Z := Z.of_nat (nat_of_ascii c) - 48.

Fixpoint atoi_digits (s : list ascii) (acc : Z) : Z :=
  match s with
  | [] => acc
  | c :: rest =>
      if isdigit c then atoi_digits rest (10 * acc + digit_value c) else acc
  end.

(** [atoi] on the strings the program gives it: a possibly empty run of
    decimal digits (no blanks, no sign).  The empty run converts to 0; a
    value that does not fit an [int] wraps. *)
Definition atoi (s : list ascii) : Z := wrap_int (atoi_digits (cstring s) 0).

End CString.

Import CString.

(** ** Tokenizer *)

Definition MSG_SIZE : Z := 32.

Definition VALID_TOKENS : list ascii :=
  list_ascii_of_string "+-*/0123456789()"%string.

(** What a call of [tokenize] does: it returns the token buffer, it returns
    NULL, or it writes past the [MSG_SIZE] bytes it allocated. *)
Inductive tokenizeResult : Type :=
| Tokens (tokens : list ascii)
| Null
| OutOfBounds.

(** The [for] loop of [tokenize] over the characters of [str]; [tokens] is
    the part of the buffer written so far, so that [index = length tokens].
    The end of the input is the final [tokens[index] = '\0']. *)
Fixpoint tokenize_loop (str tokens : list ascii) : tokenizeResult :=
  match str with
  | [] =>
      if Z.of_nat (length tokens) <? MSG_SIZE then Tokens tokens
      else OutOfBounds
  | c :: rest =>
      if strchr VALID_TOKENS c then
        if Z.of_nat (length tokens) <? MSG_SIZE
        then tokenize_loop rest (tokens ++ [c])
        else OutOfBounds
      else if (c =? " ")%char || (c =? "=")%char then tokenize_loop rest tokens
      else Null
  end.

Definition tokenize (str : list ascii) : tokenizeResult :=
  tokenize_loop (cstring str) [].

(** The alphabets of the specification, stated independently of the code. *)
Definition is_token_char (c : ascii) : bool :=
  existsb (Ascii.eqb c) (list_ascii_of_string "0123456789+-*/()"%string).

Definition is_skipped_char (c : ascii) : bool :=
  (c =? " ")%char || (c =? "=")%char.

Definition is_accepted_char (c : ascii) : bool :=
  is_token_char c || is_skipped_char c.

(** ** Expression trees *)

(** [struct expressionTree].  [createExpressionTree] is called in two ways
    only: as [('n', value, NULL, NULL)] by [parseNumber], which is
    [NumberNode value], and as [(type, 0, left, right)] with two trees by
    the operator loops, which is [OperatorNode type left right] (its [val]
    field is 0).  The assignment of the right child is spelled
    [sexpression->right = right] in the source; it is read as the
    assignment to [expression->right]. *)
Inductive expressionTree : Type :=
| NumberNode (val : Z)
| OperatorNode (type : ascii) (left right : expressionTree).

(** ** Evaluator *)

(** A call of [calculate] returns an [int], or it executes an integer
    division whose divisor is zero.  C gives that operation no result (its
    behaviour is undefined): the processor of the target raises a fatal
    fault, one that does not trap delivers 0. *)
Inductive evalResult : Type :=
| Value (val : Z)
| UndefinedDivision.

(** [left / right ? right : 0] parses as [(left / right) ? right : 0]: the
    quotient is computed first and only tested against zero. *)
Definition divide (left right : Z) : evalResult :=
  if right =? 0 then UndefinedDivision
  else if wrap_int (Z.quot left right) =? 0 then Value 0
  else Value right.

Fixpoint calculate (expression : expressionTree) : evalResult :=
  match expression with
  | NumberNode val => Value val
  | OperatorNode type l r =>
      if (type =? "n")%char then Value 0
      else
        match calculate l with
        | UndefinedDivision => UndefinedDivision
        | Value vl =>
            match calculate r with
            | UndefinedDivision => UndefinedDivision
            | Value vr =>
                if (type =? "+")%char then Value (wrap_int (vl + vr))
                else if (type =? "-")%char then Value (wrap_int (vl - vr))
                else if (type =? "*")%char then Value (wrap_int (vl * vr))
                else if (type =? "/")%char then divide vl vr
                else Value 0
            end
        end
  end.

(** ** Parser *)

(** [struct parserTok]. *)
Record parserTok : Type := mkParserTok {
  tokens : list ascii;
  numTokens : Z;
  index : Z
}.

(** [parser->tokens[parser->index]] *)
Definition current (parser : parserTok) : ascii :=
  char_at (tokens parser) (index parser).

(** [parser->index++] *)
Definition advance (parser : parserTok) : parserTok :=
  mkParserTok (tokens parser) (numTokens parser) (index parser + 1).

(** What a call of a sub-parser does.  The C functions always return; the
    recursion of the model is bounded by a budget, and [OutOfFuel] says
    that the budget was too small.  [Overrun] is the write of the
    terminator past the [MSG_SIZE] bytes of [number] in [parseNumber]. *)
Inductive outcome (A : Type) : Type :=
| Done (a : A)
| OutOfFuel
| Overrun.

Arguments Done {A} a.
Arguments OutOfFuel {A}.
Arguments Overrun {A}.

Definition bind {A B : Type} (m : outcome A) (k : A -> outcome B) : outcome B :=
  match m with
  | Done a => k a
  | OutOfFuel => OutOfFuel
  | Overrun => Overrun
  end.

Notation "' pat <- m ;; k" := (bind m (fun x => match x with pat => k end))
  (at level 61, pat pattern, m at next level, right associativity).

Definition DIGITS : list ascii := list_ascii_of_string "0123456789"%string.

(** The [while] loop of [parseNumber]; [number] holds the characters
    copied so far, so that [digits = length number]. *)
Fixpoint parseNumber_loop (fuel : nat) (parser : parserTok)
    (number : list ascii) : outcome (parserTok * list ascii) :=
  match fuel with
  | O => OutOfFuel
  | S fuel =>
      if strchr DIGITS (current parser)
         && (Z.of_nat (length number) <? MSG_SIZE)
         && (index parser <? numTokens parser)
      then parseNumber_loop fuel (advance parser) (number ++ [current parser])
      else Done (parser, number)
  end.

Definition parseNumber (fuel : nat) (parser : parserTok)
    : outcome (expressionTree * parserTok) :=
  '(parser, number) <- parseNumber_loop fuel parser [] ;;
  if Z.of_nat (length number) <? MSG_SIZE
  then Done (NumberNode (atoi number), parser)
  else Overrun.

Definition is_additive (c : ascii) : bool := (c =? "+")%char || (c =? "-")%char.

Definition is_multiplicative (c : ascii) : bool :=
  (c =? "*")%char || (c =? "/")%char.

(** The four sub-parsers; the two [while] loops are the [_loop] functions,
    which take the running [expression]. *)
Fixpoint parseAddition (fuel : nat) (parser : parserTok) {struct fuel}
    : outcome (expressionTree * parserTok) :=
  match fuel with
  | O => OutOfFuel
  | S fuel =>
      '(expression, parser) <- parseMultiplication fuel parser ;;
      parseAddition_loop fuel expression parser
  end

with parseAddition_loop (fuel : nat) (expression : expressionTree)
    (parser : parserTok) {struct fuel} : outcome (expressionTree * parserTok) :=
  match fuel with
  | O => OutOfFuel
  | S fuel =>
      if (index parser <? numTokens parser) && is_additive (current parser)
      then
        let type := current parser in
        let parser := advance parser in
        '(rightExpression, parser) <- parseMultiplication fuel parser ;;
        parseAddition_loop fuel (OperatorNode type expression rightExpression)
          parser
      else Done (expression, parser)
  end

with parseMultiplication (fuel : nat) (parser : parserTok) {struct fuel}
    : outcome (expressionTree * parserTok) :=
  match fuel with
  | O => OutOfFuel
  | S fuel =>
      '(expression, parser) <- parseParenthesis fuel parser ;;
      parseMultiplication_loop fuel expression parser
  end

with parseMultiplication_loop (fuel : nat) (expression : expressionTree)
    (parser : parserTok) {struct fuel} : outcome (expressionTree * parserTok) :=
  match fuel with
  | O => OutOfFuel
  | S fuel =>
      if (index parser <? numTokens parser)
         && is_multiplicative (current parser)
      then
        let type := current parser in
        let parser := advance parser in
        '(rightExpression, parser) <- parseParenthesis fuel parser ;;
        parseMultiplication_loop fuel
          (OperatorNode type expression rightExpression) parser
      else Done (expression, parser)
  end

with parseParenthesis (fuel : nat) (parser : parserTok) {struct fuel}
    : outcome (expressionTree * parserTok) :=
  match fuel with
  | O => OutOfFuel
  | S fuel =>
      if (current parser =? "(")%char
      then
        let parser := advance parser in
        '(expression, parser) <- parseAddition fuel parser ;;
        if (current parser =? ")")%char
        then Done (expression, advance parser)
        else Done (expression, parser)
      else parseNumber fuel parser
  end.

(** The cursor [parse] starts from. *)
Definition start (tokens : list ascii) : parserTok :=
  mkParserTok tokens (strlen tokens) 0.

(** A budget that is enough for a cursor with [remaining] tokens left. *)
Definition fuel_for (remaining : Z) : nat := Z.to_nat (4 * remaining + 4).

Definition parse_with (fuel : nat) (tokens : list ascii)
    : outcome expressionTree :=
  '(expression, _) <- parseAddition fuel (start tokens) ;;
  Done expression.

Definition parse (tokens : list ascii) : outcome expressionTree :=
  parse_with (fuel_for (strlen tokens)) tokens.

(** ** One turn of the loop of [main] *)

(** What the program does with one line: it prints the value, it prints
    ["invalid input"], or one of the steps has no result. *)
Inductive reply : Type :=
| Prints (val : Z)
| InvalidInput
| TokenizeFault
| ParseFault (o : outcome expressionTree)
| DivisionFault.

Definition answer (line : list ascii) : reply :=
  match tokenize line with
  | Null => InvalidInput
  | OutOfBounds => TokenizeFault
  | Tokens tokens =>
      match parse tokens with
      | Done expression =>
          match calculate expression with
          | Value val => Prints val
          | UndefinedDivision => DivisionFault
          end
      | o => ParseFault o
      end
  end.

Definition line (s : string) : list ascii := list_ascii_of_string s.

(** ** The cursor *)

Definition in_range (p : parserTok) : Prop := 0 <= index p <= numTokens p.

(** The cursors of the program: [numTokens] is the length of the stream,
    as [parse] sets it, and the index is inside the stream or at its end. *)
Definition well_formed (p : parserTok) : Prop :=
  numTokens p = strlen (tokens p) /\ in_range p.

(** [p'] is a later cursor over the stream of [p]. *)
Definition follows (p p' : parserTok) : Prop :=
  tokens p' = tokens p /\ numTokens p' = numTokens p /\ index p <= index p'.

Definition remaining (p : parserTok) : Z := numTokens p - index p.

(** A sub-parser that, started on a cursor of the program, returns a later
    cursor of the program. *)
Definition preserves {A : Type} (f : parserTok -> outcome (A * parserTok)) : Prop :=
  forall p a p', well_formed p -> f p = Done (a, p') ->
                 well_formed p' /\ follows p p'.

(** After the expression in parentheses, a [')'] is consumed when it is
    the current token, and nothing is consumed otherwise. *)
Definition close (r : expressionTree * parserTok) : outcome (expressionTree * parserTok) :=
  Done (fst r, if (current (snd r) =? ")")%char then advance (snd r) else snd r).

(** ** Notions used in the statements *)

(** [evaluated_in e t]: [calculate t] evaluates the subtree [e], that is,
    [e] is [t] or a descendant of [t] not below a node of type ['n']. *)
Inductive evaluated_in (e : expressionTree) : expressionTree -> Prop :=
| evaluated_here : evaluated_in e e
| evaluated_left : forall type l r,
    (type =? "n")%char = false -> evaluated_in e l ->
    evaluated_in e (OperatorNode type l r)
| evaluated_right : forall type l r,
    (type =? "n")%char = false -> evaluated_in e r ->
    evaluated_in e (OperatorNode type l r).

(** [left_nested e0 e]: [e] is [e0], or an operator node whose left child
    is, and so on down the left children. *)
Inductive left_nested (e0 : expressionTree) : expressionTree -> Prop :=
| nested_here : left_nested e0 e0
| nested_left : forall type e r,
    left_nested e0 e -> left_nested e0 (OperatorNode type e r).

(** ** Line framing: [serial_cb] and the message queue *)

Definition LF : ascii := "010"%char.
Definition CR : ascii := "013"%char.

(** [K_MSGQ_DEFINE(uart_msgq, MSG_SIZE, 10, 4)]: at most 10 messages of
    [MSG_SIZE] bytes each. *)
Definition QUEUE_LENGTH : Z := 10.

(** [k_msgq_put(&uart_msgq, &rx_buf, K_NO_WAIT)]: the bytes of the buffer
    are copied to the end of the queue; when the queue is full the message
    is dropped. *)
Definition k_msgq_put (queue : list (list ascii)) (msg : list ascii)
    : list (list ascii) :=
  if Z.of_nat (length queue) <? QUEUE_LENGTH then queue ++ [msg] else queue.

(** [buf[i] = c] for an index inside the buffer.  [serial_cb] writes at
    [rx_buf_pos] only, which stays inside [rx_buf]; at another index the
    model leaves the buffer as it is. *)
Definition store (buf : list ascii) (i : Z) (c : ascii) : list ascii :=
  if (0 <=? i) && (i <? Z.of_nat (length buf))
  then firstn (Z.to_nat i) buf ++ c :: skipn (S (Z.to_nat i)) buf
  else buf.

(** The statics [rx_buf] and [rx_buf_pos], and the queue. *)
Record uartState : Type := mkUartState {
  rx_buf : list ascii;
  rx_buf_pos : Z;
  uart_msgq : list (list ascii)
}.

(** The statics are zero-initialised and the queue starts empty. *)
Definition uart_reset : uartState :=
  mkUartState (repeat NUL (Z.to_nat MSG_SIZE)) 0 [].

(** One turn of the [while] loop of [serial_cb], for the character [c]
    read from the FIFO. *)
Definition serial_char (u : uartState) (c : ascii) : uartState :=
  if ((c =? LF)%char || (c =? CR)%char) && (0 <? rx_buf_pos u)
  then
    let buf := store (rx_buf u) (rx_buf_pos u) NUL in
    mkUartState buf 0 (k_msgq_put (uart_msgq u) buf)
  else if rx_buf_pos u <? MSG_SIZE - 1
  then mkUartState (store (rx_buf u) (rx_buf_pos u) c) (rx_buf_pos u + 1)
         (uart_msgq u)
  else u.

(** [serial_cb]: nothing is done unless [uart_irq_update] and
    [uart_irq_rx_ready] say so; then the FIFO is read until it is empty. *)
Definition serial_cb (irq_update rx_ready : bool) (fifo : list ascii)
    (u : uartState) : uartState :=
  if negb irq_update then u
  else if negb rx_ready then u
  else fold_left serial_char fifo u.

(** ** The loop of [main] *)

(** [strcmp] on the strings of two buffers: zero when they are equal,
    else the difference of the first two characters that differ. *)
Fixpoint strcmp_chars (a b : list ascii) : Z :=
  match a, b with
  | [], [] => 0
  | [], d :: _ => - Z.of_nat (nat_of_ascii d)
  | c :: _, [] => Z.of_nat (nat_of_ascii c)
  | c :: a', d :: b' =>
      if (c =? d)%char then strcmp_chars a' b'
      else Z.of_nat (nat_of_ascii c) - Z.of_nat (nat_of_ascii d)
  end.

Definition strcmp (a b : list ascii) : Z :=
  strcmp_chars (cstring a) (cstring b).

(** [print_uart]: the characters sent, those of the string in [buf]. *)
Definition print_uart (buf : list ascii) : list ascii := cstring buf.

(** The decimal digits of [n], most significant first, in front of [acc];
    [fuel] bounds their number. *)
Fixpoint decimal_digits (fuel : nat) (n : Z) (acc : list ascii) : list ascii :=
  match fuel with
  | O => acc
  | S fuel =>
      let acc := ascii_of_nat (Z.to_nat (48 + n mod 10)) :: acc in
      if n / 10 =? 0 then acc else decimal_digits fuel (n / 10) acc
  end.

(** The conversion [%d] of [sprintf] for an [int], which has at most ten
    digits: a minus sign for a negative value, then the digits. *)
Definition format_int (val : Z) : list ascii :=
  if val <? 0 then "-"%char :: decimal_digits 10 (- val) []
  else decimal_digits 10 val [].

(** [sprintf(myMsg, "%d\r\n", val)] *)
Definition sprintf_result (val : Z) : list ascii := format_int val ++ [CR; LF].

Definition EXIT : list ascii := list_ascii_of_string "exit"%string.

Definition INVALID_INPUT : list ascii :=
  LF :: list_ascii_of_string "invalid input"%string ++ [CR; LF].

(** How the loop of [main] stands when the messages run out: it waits in
    [k_msgq_get], it has left by [break], or a turn had no result. *)
Inductive loopStatus : Type :=
| Waiting
| Exited
| Faulted.

(** The [while] loop of [main] on the messages the queue delivers, in
    order: the characters sent to the UART and how the loop stands. *)
Fixpoint main_loop (msgs : list (list ascii)) : list ascii * loopStatus :=
  match msgs with
  | [] => ([], Waiting)
  | tx_buf :: rest =>
      if strcmp EXIT tx_buf =? 0 then ([], Exited)
      else
        let echo := print_uart tx_buf ++ print_uart [" "%char] in
        match answer tx_buf with
        | InvalidInput =>
            let (out, status) := main_loop rest in
            (echo ++ print_uart INVALID_INPUT ++ out, status)
        | Prints val =>
            let (out, status) := main_loop rest in
            (echo ++ print_uart (sprintf_result val) ++ out, status)
        | _ => (echo, Faulted)
        end
  end.

(** ** Writing an expression tree as a token stream *)

(** The trees whose text is written below: operators [+ - * /] and
    numbers from 0 to [INT_MAX]. *)
Fixpoint written_tree (e : expressionTree) : Prop :=
  match e with
  | NumberNode val => 0 <= val < 2 ^ 31
  | OperatorNode type l r =>
      (is_additive type || is_multiplicative type = true)
      /\ written_tree l /\ written_tree r
  end.

(** The text of [e] where an operand of level [level] is expected: 0 for
    an operand of the whole addition, 1 for a term of a sum, 2 for a
    factor of a product.  A sum is put in parentheses as a term or a
    factor, a product as a factor; the right operand of an operator is
    written one level up, so that [1-(2-3)] keeps its parentheses and
    [(1-2)-3] is written [1-2-3]. *)
Fixpoint show (level : nat) (e : expressionTree) : list ascii :=
  match e with
  | NumberNode val => format_int val
  | OperatorNode type l r =>
      if is_additive type
      then
        let body := show 0 l ++ type :: show 1 r in
        match level with
        | O => body
        | S _ => "("%char :: body ++ [")"%char]
        end
      else
        let body := show 1 l ++ type :: show 2 r in
        match level with
        | S (S _) => "("%char :: body ++ [")"%char]
        | _ => body
        end
  end.

(** The cursor over the stream [pre ++ post] that has read [pre]. *)
Definition cur (pre post : list ascii) : parserTok :=
  mkParserTok (pre ++ post) (Z.of_nat (length (pre ++ post)))
    (Z.of_nat (length pre)).

(** What may follow a number: the end of the stream, or a character that
    is neither a digit nor the terminator. *)
Definition ends_number (post : list ascii) : Prop :=
  match post with
  | [] => True
  | c :: _ => isdigit c = false /\ c <> NUL
  end.

(** What may follow a product: as for a number, and not [*] or [/]. *)
Definition ends_product (post : list ascii) : Prop :=
  match post with
  | [] => True
  | c :: _ => isdigit c = false /\ c <> NUL /\ is_multiplicative c = false
  end.

(** What may follow a whole expression: the end of the stream or a
    parenthesis. *)
Definition ends_expression (post : list ascii) : Prop :=
  match post with
  | [] => True
  | c :: _ => c = "("%char \/ c = ")"%char
  end.

(** ** Exact arithmetic *)

Definition in_int (z : Z) : Prop := - 2 ^ 31 <= z < 2 ^ 31.

(** The value of an expression over [+ - *] in the integers. *)
Fixpoint exact (e : expressionTree) : Z :=
  match e with
  | NumberNode val => val
  | OperatorNode type l r =>
      if (type =? "+")%char then exact l + exact r
      else if (type =? "-")%char then exact l - exact r
      else exact l * exact r
  end.

(** An expression over [+ - *] all of whose intermediate values fit an
    [int]. *)
Fixpoint fits_int (e : expressionTree) : Prop :=
  match e with
  | NumberNode val => in_int val
  | OperatorNode type l r =>
      ((type =? "+")%char || (type =? "-")%char || (type =? "*")%char = true)
      /\ fits_int l /\ fits_int r /\ in_int (exact (OperatorNode type l r))
  end.

(** The trees the parser builds: operator nodes of type [+ - * /] read
    from the stream [s], number nodes that fit an [int]. *)
Fixpoint built_from (s : list ascii) (e : expressionTree) : Prop :=
  match e with
  | NumberNode val => in_int val
  | OperatorNode type l r =>
      (is_additive type || is_multiplicative type = true)
      /\ In type s /\ built_from s l /\ built_from s r
  end.

(** ** Notions used in the statements on framing and reading back *)

(** What [serial_cb] keeps: the buffer has its [MSG_SIZE] bytes, the
    position leaves room for the terminator, the queue holds at most
    [QUEUE_LENGTH] messages, each a terminated copy of the buffer. *)
Definition uart_ok (u : uartState) : Prop :=
  Z.of_nat (length (rx_buf u)) = MSG_SIZE
  /\ 0 <= rx_buf_pos u <= MSG_SIZE - 1
  /\ Z.of_nat (length (uart_msgq u)) <= QUEUE_LENGTH
  /\ Forall (fun m => Z.of_nat (length m) = MSG_SIZE /\ strlen m < MSG_SIZE)
       (uart_msgq u).

(** The characters received since the last message. *)
Definition line_so_far (u : uartState) : list ascii :=
  firstn (Z.to_nat (rx_buf_pos u)) (rx_buf u).

Definition is_terminator (c : ascii) : bool := (c =? LF)%char || (c =? CR)%char.


(** The text [x] is read as the tree [t] by [parseAddition], which then
    goes on with its loop behind the text and [t] as running expression;
    the same for [parseMultiplication]; and [parseParenthesis] returns
    [t] behind the text. *)
Definition read_as_sum (x : list ascii) (t : expressionTree) : Prop :=
  forall fuel pre post, ends_product post ->
  exists fuel',
    parseAddition fuel (cur pre (x ++ post))
    = parseAddition_loop fuel' t (cur (pre ++ x) post).

Definition read_as_product (x : list ascii) (t : expressionTree) : Prop :=
  forall fuel pre post, ends_number post ->
  exists fuel',
    parseMultiplication fuel (cur pre (x ++ post))
    = parseMultiplication_loop fuel' t (cur (pre ++ x) post).

Definition read_as_factor (x : list ascii) (t : expressionTree) : Prop :=
  forall fuel pre post, ends_number post ->
  parseParenthesis fuel (cur pre (x ++ post)) = OutOfFuel
  \/ parseParenthesis fuel (cur pre (x ++ post)) = Done (t, cur (pre ++ x) post).

(** ** Facts about C strings *)

Section CStringFacts.

Lemma cstring_no_nul : forall buf, Forall (fun c => c <> NUL) (cstring buf).
Proof.
  induction buf as [|c rest IH]; simpl; [constructor|].
  destruct (Ascii.eqb_spec c NUL); [constructor|].
  constructor; assumption.
Qed.

Lemma cstring_fixed : forall s, Forall (fun c => c <> NUL) s -> cstring s = s.
Proof.
  induction 1 as [|c rest Hc _ IH]; simpl; [reflexivity|].
  destruct (Ascii.eqb_spec c NUL); [contradiction|].
  now rewrite IH.
Qed.

Lemma strlen_nonneg : forall buf, 0 <= strlen buf.
Proof. intro buf. unfold strlen. lia. Qed.

(** Below [strlen] the buffer holds characters of the string, none of
    which is the terminator. *)
Lemma char_at_below_strlen : forall buf i,
  0 <= i < strlen buf -> char_at buf i <> NUL.
Proof.
  unfold char_at, strlen. induction buf as [|c rest IH]; simpl; intros i Hi.
  - lia.
  - destruct (Ascii.eqb_spec c NUL) as [->|Hc]; simpl in Hi; [lia|].
    destruct (Z.to_nat i) as [|k] eqn:Ek; [assumption|].
    replace k with (Z.to_nat (i - 1)) by lia.
    apply IH. lia.
Qed.

Lemma nth_cstring_length : forall buf, nth (length (cstring buf)) buf NUL = NUL.
Proof.
  induction buf as [|c rest IH]; simpl; [reflexivity|].
  destruct (Ascii.eqb_spec c NUL) as [->|Hc]; simpl; [reflexivity|assumption].
Qed.

(** At [strlen] the buffer holds the terminator. *)
Lemma char_at_strlen : forall buf, char_at buf (strlen buf) = NUL.
Proof.
  intro buf. unfold char_at, strlen. rewrite Nat2Z.id.
  apply nth_cstring_length.
Qed.

End CStringFacts.

(** ** The tokenizer against the alphabets of the specification *)

Section Tokenizer.

Lemma strchr_valid_tokens : forall c,
  strchr VALID_TOKENS c = is_token_char c || (c =? NUL)%char.
Proof. intros [[] [] [] [] [] [] [] []]; reflexivity. Qed.

Lemma skipped_not_nul : forall c, is_skipped_char c = true -> (c =? NUL)%char = false.
Proof.
  intros c H. destruct (Ascii.eqb_spec c NUL) as [->|]; [discriminate H|reflexivity].
Qed.

Lemma token_char_not_nul : forall c, is_token_char c = true -> c <> NUL.
Proof. intros c H ->. discriminate H. Qed.

(** With room in the buffer for every token character of [s], the loop
    copies exactly the token characters, in order. *)
Lemma tokenize_loop_accepts : forall s acc,
  Forall (fun c => is_accepted_char c = true) s ->
  Z.of_nat (length acc) + Z.of_nat (length (filter is_token_char s)) < MSG_SIZE ->
  tokenize_loop s acc = Tokens (acc ++ filter is_token_char s).
Proof.
  induction s as [|c rest IH]; intros acc Hall Hroom; simpl in *.
  - rewrite app_nil_r.
    destruct (Z.ltb_spec (Z.of_nat (length acc)) MSG_SIZE); [reflexivity|lia].
  - inversion Hall as [|? ? Hc Hrest]; subst.
    rewrite strchr_valid_tokens.
    unfold is_accepted_char in Hc.
    destruct (is_token_char c) eqn:Etok; simpl in *.
    + destruct (Z.ltb_spec (Z.of_nat (length acc)) MSG_SIZE); [|lia].
      rewrite IH; [now rewrite <- app_assoc|assumption|].
      rewrite length_app. simpl. lia.
    + rewrite (skipped_not_nul c Hc).
      unfold is_skipped_char in Hc. rewrite Hc.
      now apply IH.
Qed.

(** A character outside the accepted alphabet makes the loop return NULL,
    provided the buffer has room for what precedes it. *)
Lemma tokenize_loop_rejects : forall s acc,
  Forall (fun c => c <> NUL) s ->
  Exists (fun c => is_accepted_char c = false) s ->
  Z.of_nat (length acc) + Z.of_nat (length s) <= MSG_SIZE ->
  tokenize_loop s acc = Null.
Proof.
  induction s as [|c rest IH]; intros acc Hnul Hbad Hroom.
  - inversion Hbad.
  - inversion Hnul as [|? ? Hc Hrest]; subst.
    simpl in Hroom. simpl tokenize_loop.
    rewrite strchr_valid_tokens.
    apply Ascii.eqb_neq in Hc. rewrite Hc, orb_false_r.
    destruct (is_token_char c) eqn:Etok.
    + destruct (Z.ltb_spec (Z.of_nat (length acc)) MSG_SIZE); [|lia].
      apply IH; [assumption| |rewrite length_app; simpl; lia].
      inversion Hbad as [? ? Hhd|? ? Htl]; subst; [|assumption].
      unfold is_accepted_char in Hhd. rewrite Etok in Hhd. discriminate.
    + destruct ((c =? " ")%char || (c =? "=")%char) eqn:Eskip; [|reflexivity].
      apply IH; [assumption| |lia].
      inversion Hbad as [? ? Hhd|? ? Htl]; subst; [|assumption].
      unfold is_accepted_char, is_skipped_char in Hhd.
      rewrite Etok, Eskip in Hhd. discriminate.
Qed.

(** What a successful run of the loop has produced. *)
Lemma tokenize_loop_tokens : forall s acc t,
  Forall (fun c => c <> NUL) s ->
  tokenize_loop s acc = Tokens t ->
  exists u, t = acc ++ u
            /\ Forall (fun c => is_token_char c = true) u
            /\ Z.of_nat (length t) < MSG_SIZE.
Proof.
  induction s as [|c rest IH]; intros acc t Hnul Hrun; simpl in Hrun.
  - destruct (Z.ltb_spec (Z.of_nat (length acc)) MSG_SIZE); [|discriminate].
    injection Hrun as <-. exists []. rewrite app_nil_r. auto.
  - inversion Hnul as [|? ? Hc Hrest]; subst.
    rewrite strchr_valid_tokens in Hrun.
    apply Ascii.eqb_neq in Hc. rewrite Hc, orb_false_r in Hrun.
    destruct (is_token_char c) eqn:Etok.
    + destruct (Z.of_nat (length acc) <? MSG_SIZE); [|discriminate].
      destruct (IH _ _ Hrest Hrun) as (u & -> & Hu & Hlen).
      exists (c :: u). rewrite <- app_assoc in *. simpl in *. auto.
    + destruct ((c =? " ")%char || (c =? "=")%char); [|discriminate].
      now apply IH.
Qed.

Lemma filter_token_chars : forall u,
  Forall (fun c => is_token_char c = true) u -> filter is_token_char u = u.
Proof.
  induction 1 as [|c u Hc _ IH]; simpl; [reflexivity|].
  now rewrite Hc, IH.
Qed.

(** The streams [tokenize] returns: token characters only, short enough
    for the buffer. *)
Lemma tokenize_stream : forall str t,
  tokenize str = Tokens t ->
  Forall (fun c => is_token_char c = true) t /\ Z.of_nat (length t) < MSG_SIZE.
Proof.
  intros str t H. unfold tokenize in H.
  destruct (tokenize_loop_tokens _ _ _ (cstring_no_nul str) H) as (u & -> & Hu & Hlen).
  auto.
Qed.

Lemma token_chars_cstring : forall t,
  Forall (fun c => is_token_char c = true) t -> cstring t = t.
Proof.
  intros t H. apply cstring_fixed.
  eapply Forall_impl; [|exact H]. apply token_char_not_nul.
Qed.

(** A whitespace-free string over the token alphabet that fits the buffer
    is returned as it is. *)
Lemma tokenize_token_chars : forall t,
  Forall (fun c => is_token_char c = true) t ->
  Z.of_nat (length t) < MSG_SIZE ->
  tokenize t = Tokens t.
Proof.
  intros t Htok Hlen. unfold tokenize.
  rewrite (token_chars_cstring t Htok).
  rewrite tokenize_loop_accepts.
  - now rewrite filter_token_chars.
  - eapply Forall_impl; [|exact Htok].
    intros c Hc. unfold is_accepted_char. now rewrite Hc.
  - rewrite filter_token_chars by assumption. simpl. lia.
Qed.

End Tokenizer.

(** ** Facts about the cursor *)

Section Cursor.

Lemma follows_refl : forall p, follows p p.
Proof. intro p. unfold follows. repeat split; lia. Qed.

Lemma follows_trans : forall p q r, follows p q -> follows q r -> follows p r.
Proof.
  unfold follows. intros p q r (Ht & Hn & Hi) (Ht' & Hn' & Hi').
  repeat split; [congruence|congruence|lia].
Qed.

Lemma start_well_formed : forall tokens, well_formed (start tokens).
Proof.
  intro t. unfold well_formed, in_range, start. simpl.
  pose proof (strlen_nonneg t). lia.
Qed.

Lemma current_inside : forall p,
  well_formed p -> index p < numTokens p -> current p <> NUL.
Proof.
  intros p [Hn [Hlo Hhi]] Hlt. unfold current.
  apply char_at_below_strlen. lia.
Qed.

Lemma current_at_end : forall p,
  well_formed p -> index p = numTokens p -> current p = NUL.
Proof.
  intros p [Hn _] Hend. unfold current. rewrite Hend, Hn.
  apply char_at_strlen.
Qed.

(** A character other than the terminator is read inside the stream. *)
Lemma current_not_nul_inside : forall p,
  well_formed p -> current p <> NUL -> index p < numTokens p.
Proof.
  intros p Hwf Hc.
  destruct (Z.eq_dec (index p) (numTokens p)) as [E|E].
  - elim Hc. now apply current_at_end.
  - destruct Hwf as [_ [_ Hhi]]. lia.
Qed.

Lemma advance_inside : forall p,
  well_formed p -> index p < numTokens p ->
  well_formed (advance p) /\ follows p (advance p).
Proof.
  intros p [Hn [Hlo Hhi]] Hlt.
  unfold well_formed, in_range, follows, advance; simpl.
  repeat split; try assumption; lia.
Qed.

Lemma remaining_advance : forall p, remaining (advance p) = remaining p - 1.
Proof. intro p. unfold remaining, advance. simpl. lia. Qed.

Lemma follows_remaining : forall p p', follows p p' -> remaining p' <= remaining p.
Proof. unfold follows, remaining. intros p p' (_ & Hn & Hi). lia. Qed.

End Cursor.

(** ** Unfolding equations of the sub-parsers *)

Section Equations.

Variable fuel : nat.

Lemma parseNumber_loop_eq : forall p number,
  parseNumber_loop (S fuel) p number =
  if strchr DIGITS (current p)
     && (Z.of_nat (length number) <? MSG_SIZE)
     && (index p <? numTokens p)
  then parseNumber_loop fuel (advance p) (number ++ [current p])
  else Done (p, number).
Proof. reflexivity. Qed.

Lemma parseAddition_eq : forall p,
  parseAddition (S fuel) p =
  bind (parseMultiplication fuel p)
       (fun r => parseAddition_loop fuel (fst r) (snd r)).
Proof.
  intro p. simpl. destruct (parseMultiplication fuel p) as [[e q]| |]; reflexivity.
Qed.

Lemma parseAddition_loop_eq : forall e p,
  parseAddition_loop (S fuel) e p =
  if (index p <? numTokens p) && is_additive (current p)
  then bind (parseMultiplication fuel (advance p))
            (fun r => parseAddition_loop fuel
                        (OperatorNode (current p) e (fst r)) (snd r))
  else Done (e, p).
Proof.
  intros e p. simpl.
  destruct ((index p <? numTokens p) && is_additive (current p)); [|reflexivity].
  destruct (parseMultiplication fuel (advance p)) as [[e' q]| |]; reflexivity.
Qed.

Lemma parseMultiplication_eq : forall p,
  parseMultiplication (S fuel) p =
  bind (parseParenthesis fuel p)
       (fun r => parseMultiplication_loop fuel (fst r) (snd r)).
Proof.
  intro p. simpl. destruct (parseParenthesis fuel p) as [[e q]| |]; reflexivity.
Qed.

Lemma parseMultiplication_loop_eq : forall e p,
  parseMultiplication_loop (S fuel) e p =
  if (index p <? numTokens p) && is_multiplicative (current p)
  then bind (parseParenthesis fuel (advance p))
            (fun r => parseMultiplication_loop fuel
                        (OperatorNode (current p) e (fst r)) (snd r))
  else Done (e, p).
Proof.
  intros e p. simpl.
  destruct ((index p <? numTokens p) && is_multiplicative (current p)); [|reflexivity].
  destruct (parseParenthesis fuel (advance p)) as [[e' q]| |]; reflexivity.
Qed.

Lemma parseParenthesis_eq : forall p,
  parseParenthesis (S fuel) p =
  if (current p =? "(")%char
  then bind (parseAddition fuel (advance p)) close
  else parseNumber fuel p.
Proof.
  intro p. simpl. destruct (current p =? "(")%char; [|reflexivity].
  destruct (parseAddition fuel (advance p)) as [[e q]| |]; simpl; [|reflexivity..].
  unfold close. simpl. destruct (current q =? ")")%char; reflexivity.
Qed.

End Equations.

(** ** The cursor invariant *)

Section Invariant.

Ltac run H :=
  match type of H with
  | bind ?m _ = _ =>
      let E := fresh "E" in
      destruct m as [[? ?]| |] eqn:E; simpl in H; try discriminate H
  end.

Lemma parseNumber_loop_preserves : forall fuel p number p' number',
  well_formed p ->
  parseNumber_loop fuel p number = Done (p', number') ->
  well_formed p' /\ follows p p'
  /\ Z.of_nat (length number') - Z.of_nat (length number) = index p' - index p.
Proof.
  induction fuel as [|fuel IH]; intros p number p' number' Hwf H.
  - discriminate H.
  - rewrite parseNumber_loop_eq in H.
    destruct (strchr DIGITS (current p) && (Z.of_nat (length number) <? MSG_SIZE)
              && (index p <? numTokens p)) eqn:Econd.
    + apply andb_prop in Econd as [_ Hlt]. apply Z.ltb_lt in Hlt.
      destruct (advance_inside p Hwf Hlt) as [Hwf' Hfol].
      destruct (IH _ _ _ _ Hwf' H) as (Hwf'' & Hfol' & Hlen).
      split; [assumption|]. split; [eapply follows_trans; eassumption|].
      rewrite length_app in Hlen. simpl in Hlen. lia.
    + injection H as <- <-. split; [assumption|].
      split; [apply follows_refl|lia].
Qed.

Lemma parseNumber_preserves : forall fuel, preserves (parseNumber fuel).
Proof.
  intros fuel p e p' Hwf H. unfold parseNumber in H. run H.
  destruct (Z.of_nat (length l) <? MSG_SIZE); [|discriminate H].
  injection H as _ <-.
  destruct (parseNumber_loop_preserves _ _ _ _ _ Hwf E) as (? & ? & _). auto.
Qed.

(** Composition of two steps that preserve the invariant. *)
Lemma preserves_bind : forall (f : parserTok -> outcome (expressionTree * parserTok))
    (g : expressionTree * parserTok -> outcome (expressionTree * parserTok)),
  preserves f ->
  (forall e, preserves (fun p => g (e, p))) ->
  preserves (fun p => bind (f p) g).
Proof.
  intros f g Hf Hg p e p' Hwf H. simpl in H. run H.
  destruct (Hf _ _ _ Hwf E) as [Hwf1 Hfol1].
  destruct (Hg e0 _ _ _ Hwf1 H) as [Hwf2 Hfol2].
  split; [assumption|eapply follows_trans; eassumption].
Qed.

(** A guarded [index++] followed by a step; the step may depend on the
    character that was consumed. *)
Lemma preserves_after_advance : forall (c : parserTok -> bool)
    (f : ascii -> parserTok -> outcome (expressionTree * parserTok))
    (g : parserTok -> outcome (expressionTree * parserTok)),
  (forall p, well_formed p -> c p = true -> index p < numTokens p) ->
  (forall t, preserves (f t)) -> preserves g ->
  preserves (fun p => if c p then f (current p) (advance p) else g p).
Proof.
  intros c f g Hc Hf Hg p e p' Hwf H. simpl in H.
  destruct (c p) eqn:Ec.
  - destruct (advance_inside p Hwf (Hc p Hwf Ec)) as [Hwf1 Hfol1].
    destruct (Hf _ _ _ _ Hwf1 H) as [Hwf2 Hfol2].
    split; [assumption|eapply follows_trans; eassumption].
  - exact (Hg _ _ _ Hwf H).
Qed.

Lemma preserves_done : forall e : expressionTree, preserves (fun p => Done (e, p)).
Proof.
  intros e p a p' Hwf H. injection H as <- <-.
  split; [assumption|apply follows_refl].
Qed.

Lemma preserves_close : forall e, preserves (fun p => close (e, p)).
Proof.
  intros e p a p' Hwf H. unfold close in H. simpl in H. injection H as <- <-.
  destruct (Ascii.eqb_spec (current p) ")"%char) as [Ec|Ec].
  - apply advance_inside; [assumption|].
    apply current_not_nul_inside; [assumption|]. rewrite Ec. discriminate.
  - split; [assumption|apply follows_refl].
Qed.

Lemma open_inside : forall p,
  well_formed p -> (current p =? "(")%char = true -> index p < numTokens p.
Proof.
  intros p Hwf Ec. apply Ascii.eqb_eq in Ec.
  apply current_not_nul_inside; [assumption|]. rewrite Ec. discriminate.
Qed.

Lemma guard_inside : forall (is_op : ascii -> bool) p,
  well_formed p ->
  (index p <? numTokens p) && is_op (current p) = true ->
  index p < numTokens p.
Proof. intros is_op p _ H. apply andb_prop in H as [H _]. now apply Z.ltb_lt. Qed.

(** Every sub-parser and both loops, for every budget. *)
Lemma parsers_preserve : forall fuel,
  preserves (parseAddition fuel)
  /\ (forall e, preserves (parseAddition_loop fuel e))
  /\ preserves (parseMultiplication fuel)
  /\ (forall e, preserves (parseMultiplication_loop fuel e))
  /\ preserves (parseParenthesis fuel).
Proof.
  induction fuel as [|fuel (IHa & IHal & IHm & IHml & IHp)].
  - unfold preserves. repeat split; intros; discriminate.
  - split; [|split; [|split; [|split]]].
    + intros p a p' Hwf H. rewrite parseAddition_eq in H.
      revert p a p' Hwf H. apply preserves_bind; [assumption|].
      intros e q b q' Hq Hr. exact (IHal e q b q' Hq Hr).
    + intros e p a p' Hwf H. rewrite parseAddition_loop_eq in H.
      revert e p a p' Hwf H. intro e.
      apply (preserves_after_advance
               (fun p => (index p <? numTokens p) && is_additive (current p))
               (fun t q => bind (parseMultiplication fuel q)
                             (fun r => parseAddition_loop fuel
                                         (OperatorNode t e (fst r)) (snd r)))).
      * apply guard_inside.
      * intro t. apply preserves_bind; [assumption|].
        intros e' q b q' Hq Hr. exact (IHal _ q b q' Hq Hr).
      * apply preserves_done.
    + intros p a p' Hwf H. rewrite parseMultiplication_eq in H.
      revert p a p' Hwf H. apply preserves_bind; [assumption|].
      intros e q b q' Hq Hr. exact (IHml e q b q' Hq Hr).
    + intros e p a p' Hwf H. rewrite parseMultiplication_loop_eq in H.
      revert e p a p' Hwf H. intro e.
      apply (preserves_after_advance
               (fun p => (index p <? numTokens p) && is_multiplicative (current p))
               (fun t q => bind (parseParenthesis fuel q)
                             (fun r => parseMultiplication_loop fuel
                                         (OperatorNode t e (fst r)) (snd r)))).
      * apply guard_inside.
      * intro t. apply preserves_bind; [assumption|].
        intros e' q b q' Hq Hr. exact (IHml _ q b q' Hq Hr).
      * apply preserves_done.
    + intros p a p' Hwf H. rewrite parseParenthesis_eq in H.
      revert p a p' Hwf H.
      apply (preserves_after_advance (fun p => (current p =? "(")%char)
               (fun _ q => bind (parseAddition fuel q) close)).
      * apply open_inside.
      * intros _. apply preserves_bind; [assumption|]. apply preserves_close.
      * apply parseNumber_preserves.
Qed.

End Invariant.

(** ** Termination: a budget linear in the unread tokens is enough *)

Section Termination.

Lemma bind_not_out_of_fuel : forall (A B : Type) (m : outcome A) (k : A -> outcome B),
  m <> OutOfFuel ->
  (forall a, m = Done a -> k a <> OutOfFuel) ->
  bind m k <> OutOfFuel.
Proof.
  intros A B [a| |] k Hm Hk; simpl; [now apply Hk|contradiction|discriminate].
Qed.

Lemma remaining_nonneg : forall p, well_formed p -> 0 <= remaining p.
Proof. intros p [_ [_ H]]. unfold remaining. lia. Qed.

Lemma parseNumber_loop_done : forall fuel p number,
  well_formed p ->
  remaining p + 1 <= Z.of_nat fuel ->
  exists p' number', parseNumber_loop fuel p number = Done (p', number').
Proof.
  induction fuel as [|fuel IH]; intros p number Hwf Hfuel.
  - pose proof (remaining_nonneg p Hwf). lia.
  - rewrite parseNumber_loop_eq.
    destruct (strchr DIGITS (current p) && (Z.of_nat (length number) <? MSG_SIZE)
              && (index p <? numTokens p)) eqn:Econd; [|eauto].
    apply andb_prop in Econd as [_ Hlt]. apply Z.ltb_lt in Hlt.
    apply IH; [now apply advance_inside|].
    rewrite remaining_advance. lia.
Qed.

Lemma parseNumber_finishes : forall fuel p,
  well_formed p ->
  remaining p + 1 <= Z.of_nat fuel ->
  parseNumber fuel p <> OutOfFuel.
Proof.
  intros fuel p Hwf Hfuel. unfold parseNumber.
  destruct (parseNumber_loop_done fuel p [] Hwf Hfuel) as (p' & number' & ->).
  simpl. destruct (Z.of_nat (length number') <? MSG_SIZE); discriminate.
Qed.

(** The budgets follow the call graph: a loop needs one unit for its
    test, a call one unit more than what it calls. *)
Lemma parsers_finish : forall fuel p,
  well_formed p ->
  (4 * remaining p + 4 <= Z.of_nat fuel -> parseAddition fuel p <> OutOfFuel)
  /\ (forall e, 4 * remaining p + 1 <= Z.of_nat fuel ->
                parseAddition_loop fuel e p <> OutOfFuel)
  /\ (4 * remaining p + 3 <= Z.of_nat fuel -> parseMultiplication fuel p <> OutOfFuel)
  /\ (forall e, 4 * remaining p + 1 <= Z.of_nat fuel ->
                parseMultiplication_loop fuel e p <> OutOfFuel)
  /\ (4 * remaining p + 2 <= Z.of_nat fuel -> parseParenthesis fuel p <> OutOfFuel).
Proof.
  induction fuel as [|fuel IH]; intros p Hwf;
    pose proof (remaining_nonneg p Hwf) as Hrem.
  - repeat split; intros; lia.
  - split; [|split; [|split; [|split]]].
    + intro Hfuel. rewrite parseAddition_eq.
      apply bind_not_out_of_fuel.
      * apply (IH p Hwf). lia.
      * intros [e q] Hq. simpl.
        destruct (proj1 (proj2 (proj2 (parsers_preserve fuel))) _ _ _ Hwf Hq)
          as [Hwfq Hfol].
        apply follows_remaining in Hfol.
        apply (IH q Hwfq). lia.
    + intros e Hfuel. rewrite parseAddition_loop_eq.
      destruct ((index p <? numTokens p) && is_additive (current p)) eqn:Ec;
        [|discriminate].
      apply andb_prop in Ec as [Hlt _]. apply Z.ltb_lt in Hlt.
      destruct (advance_inside p Hwf Hlt) as [Hwf1 _].
      pose proof (remaining_advance p) as Hr1.
      apply bind_not_out_of_fuel.
      * apply (IH _ Hwf1). lia.
      * intros [e' q] Hq. simpl.
        destruct (proj1 (proj2 (proj2 (parsers_preserve fuel))) _ _ _ Hwf1 Hq)
          as [Hwfq Hfol].
        apply follows_remaining in Hfol.
        apply (IH q Hwfq). lia.
    + intro Hfuel. rewrite parseMultiplication_eq.
      apply bind_not_out_of_fuel.
      * apply (IH p Hwf). lia.
      * intros [e q] Hq. simpl.
        destruct (proj2 (proj2 (proj2 (proj2 (parsers_preserve fuel)))) _ _ _ Hwf Hq)
          as [Hwfq Hfol].
        apply follows_remaining in Hfol.
        apply (IH q Hwfq). lia.
    + intros e Hfuel. rewrite parseMultiplication_loop_eq.
      destruct ((index p <? numTokens p) && is_multiplicative (current p)) eqn:Ec;
        [|discriminate].
      apply andb_prop in Ec as [Hlt _]. apply Z.ltb_lt in Hlt.
      destruct (advance_inside p Hwf Hlt) as [Hwf1 _].
      pose proof (remaining_advance p) as Hr1.
      apply bind_not_out_of_fuel.
      * apply (IH _ Hwf1). lia.
      * intros [e' q] Hq. simpl.
        destruct (proj2 (proj2 (proj2 (proj2 (parsers_preserve fuel)))) _ _ _ Hwf1 Hq)
          as [Hwfq Hfol].
        apply follows_remaining in Hfol.
        apply (IH q Hwfq). lia.
    + intro Hfuel. rewrite parseParenthesis_eq.
      destruct (current p =? "(")%char eqn:Ec.
      * pose proof (open_inside p Hwf Ec) as Hlt.
        destruct (advance_inside p Hwf Hlt) as [Hwf1 _].
        pose proof (remaining_advance p) as Hr1.
        apply bind_not_out_of_fuel.
        -- apply (IH _ Hwf1). lia.
        -- intros [e q] _. discriminate.
      * apply parseNumber_finishes; [assumption|lia].
Qed.

End Termination.

(** ** The digit buffer of [parseNumber] *)

Section DigitBuffer.

Lemma bind_not_overrun : forall (A B : Type) (m : outcome A) (k : A -> outcome B),
  m <> Overrun ->
  (forall a, m = Done a -> k a <> Overrun) ->
  bind m k <> Overrun.
Proof.
  intros A B [a| |] k Hm Hk; simpl; [now apply Hk|discriminate|contradiction].
Qed.

Lemma parseNumber_loop_not_overrun : forall fuel p number,
  parseNumber_loop fuel p number <> Overrun.
Proof.
  induction fuel as [|fuel IH]; intros p number; [discriminate|].
  rewrite parseNumber_loop_eq.
  destruct (strchr DIGITS (current p) && (Z.of_nat (length number) <? MSG_SIZE)
            && (index p <? numTokens p)); [apply IH|discriminate].
Qed.

(** On a stream that fits the token buffer the digit run fits [number],
    terminator included. *)
Lemma parseNumber_not_overrun : forall fuel p,
  well_formed p -> numTokens p < MSG_SIZE ->
  parseNumber fuel p <> Overrun.
Proof.
  intros fuel p Hwf Hfit. unfold parseNumber.
  apply bind_not_overrun; [apply parseNumber_loop_not_overrun|].
  intros [p' number'] Hrun.
  destruct (parseNumber_loop_preserves _ _ _ _ _ Hwf Hrun)
    as ([_ [_ Hhi]] & (_ & Hn & _) & Hlen).
  destruct Hwf as [_ [Hlo _]]. simpl in Hlen.
  destruct (Z.ltb_spec (Z.of_nat (length number')) MSG_SIZE); [discriminate|lia].
Qed.

Lemma parsers_not_overrun : forall fuel p,
  well_formed p -> numTokens p < MSG_SIZE ->
  parseAddition fuel p <> Overrun
  /\ (forall e, parseAddition_loop fuel e p <> Overrun)
  /\ parseMultiplication fuel p <> Overrun
  /\ (forall e, parseMultiplication_loop fuel e p <> Overrun)
  /\ parseParenthesis fuel p <> Overrun.
Proof.
  induction fuel as [|fuel IH]; intros p Hwf Hfit.
  - repeat split; intros; discriminate.
  - assert (Hnext : forall (f : parserTok -> outcome (expressionTree * parserTok)) p0 e q,
               preserves f -> well_formed p0 -> numTokens p0 < MSG_SIZE ->
               f p0 = Done (e, q) -> well_formed q /\ numTokens q < MSG_SIZE).
    { intros f p0 e q Hf Hwf0 Hfit0 Hq.
      destruct (Hf _ _ _ Hwf0 Hq) as [Hwfq (_ & Hn & _)].
      split; [assumption|lia]. }
    destruct (parsers_preserve fuel) as (Pa & Pal & Pm & Pml & Pp).
    split; [|split; [|split; [|split]]].
    + rewrite parseAddition_eq. apply bind_not_overrun.
      * apply (IH p Hwf Hfit).
      * intros [e q] Hq. simpl.
        destruct (Hnext _ _ _ _ Pm Hwf Hfit Hq) as [Hwfq Hfitq].
        apply (IH q Hwfq Hfitq).
    + intro e. rewrite parseAddition_loop_eq.
      destruct ((index p <? numTokens p) && is_additive (current p)) eqn:Ec;
        [|discriminate].
      apply andb_prop in Ec as [Hlt _]. apply Z.ltb_lt in Hlt.
      destruct (advance_inside p Hwf Hlt) as [Hwf1 _].
      assert (Hfit1 : numTokens (advance p) < MSG_SIZE) by exact Hfit.
      apply bind_not_overrun.
      * apply (IH _ Hwf1 Hfit1).
      * intros [e' q] Hq. simpl.
        destruct (Hnext _ _ _ _ Pm Hwf1 Hfit1 Hq) as [Hwfq Hfitq].
        apply (IH q Hwfq Hfitq).
    + rewrite parseMultiplication_eq. apply bind_not_overrun.
      * apply (IH p Hwf Hfit).
      * intros [e q] Hq. simpl.
        destruct (Hnext _ _ _ _ Pp Hwf Hfit Hq) as [Hwfq Hfitq].
        apply (IH q Hwfq Hfitq).
    + intro e. rewrite parseMultiplication_loop_eq.
      destruct ((index p <? numTokens p) && is_multiplicative (current p)) eqn:Ec;
        [|discriminate].
      apply andb_prop in Ec as [Hlt _]. apply Z.ltb_lt in Hlt.
      destruct (advance_inside p Hwf Hlt) as [Hwf1 _].
      assert (Hfit1 : numTokens (advance p) < MSG_SIZE) by exact Hfit.
      apply bind_not_overrun.
      * apply (IH _ Hwf1 Hfit1).
      * intros [e' q] Hq. simpl.
        destruct (Hnext _ _ _ _ Pp Hwf1 Hfit1 Hq) as [Hwfq Hfitq].
        apply (IH q Hwfq Hfitq).
    + rewrite parseParenthesis_eq.
      destruct (current p =? "(")%char eqn:Ec.
      * pose proof (open_inside p Hwf Ec) as Hlt.
        destruct (advance_inside p Hwf Hlt) as [Hwf1 _].
        apply bind_not_overrun.
        -- apply (IH _ Hwf1 Hfit).
        -- intros [e q] _. discriminate.
      * now apply parseNumber_not_overrun.
Qed.

End DigitBuffer.

(** ** More budget does not change a result *)

Section Budget.

Lemma bind_stable : forall (A B : Type) (m m' : outcome A) (k k' : A -> outcome B),
  bind m k <> OutOfFuel ->
  (m <> OutOfFuel -> m' = m) ->
  (forall a, m = Done a -> k a <> OutOfFuel -> k' a = k a) ->
  bind m' k' = bind m k.
Proof.
  intros A B m m' k k' Hrun Hm Hk.
  destruct m as [a| |]; simpl in *.
  - rewrite Hm by discriminate. simpl. now apply Hk.
  - contradiction.
  - rewrite Hm by discriminate. reflexivity.
Qed.

Lemma parseNumber_loop_stable : forall fuel fuel' p number,
  (fuel <= fuel')%nat ->
  parseNumber_loop fuel p number <> OutOfFuel ->
  parseNumber_loop fuel' p number = parseNumber_loop fuel p number.
Proof.
  induction fuel as [|fuel IH]; intros fuel' p number Hle Hrun.
  - now elim Hrun.
  - destruct fuel' as [|fuel']; [lia|].
    rewrite !parseNumber_loop_eq in *.
    destruct (strchr DIGITS (current p) && (Z.of_nat (length number) <? MSG_SIZE)
              && (index p <? numTokens p)); [|reflexivity].
    apply IH; [lia|assumption].
Qed.

Lemma parseNumber_stable : forall fuel fuel' p,
  (fuel <= fuel')%nat ->
  parseNumber fuel p <> OutOfFuel ->
  parseNumber fuel' p = parseNumber fuel p.
Proof.
  intros fuel fuel' p Hle Hrun. unfold parseNumber in *.
  apply bind_stable; [assumption| |reflexivity].
  now apply parseNumber_loop_stable.
Qed.

Lemma parsers_stable : forall fuel fuel' p,
  (fuel <= fuel')%nat ->
  (parseAddition fuel p <> OutOfFuel -> parseAddition fuel' p = parseAddition fuel p)
  /\ (forall e, parseAddition_loop fuel e p <> OutOfFuel ->
                parseAddition_loop fuel' e p = parseAddition_loop fuel e p)
  /\ (parseMultiplication fuel p <> OutOfFuel ->
      parseMultiplication fuel' p = parseMultiplication fuel p)
  /\ (forall e, parseMultiplication_loop fuel e p <> OutOfFuel ->
                parseMultiplication_loop fuel' e p = parseMultiplication_loop fuel e p)
  /\ (parseParenthesis fuel p <> OutOfFuel ->
      parseParenthesis fuel' p = parseParenthesis fuel p).
Proof.
  induction fuel as [|fuel IH]; intros fuel' p Hle.
  - repeat split; intros; exfalso; auto.
  - destruct fuel' as [|fuel']; [lia|].
    assert (Hle' : (fuel <= fuel')%nat) by lia.
    split; [|split; [|split; [|split]]].
    + rewrite !parseAddition_eq. intro Hrun.
      apply bind_stable; [assumption|apply (IH fuel' p Hle')|].
      intros [e q] _. apply (IH fuel' q Hle').
    + intro e. rewrite !parseAddition_loop_eq.
      destruct ((index p <? numTokens p) && is_additive (current p)); [|reflexivity].
      intro Hrun.
      apply bind_stable; [assumption|apply (IH fuel' _ Hle')|].
      intros [e' q] _. apply (IH fuel' q Hle').
    + rewrite !parseMultiplication_eq. intro Hrun.
      apply bind_stable; [assumption|apply (IH fuel' p Hle')|].
      intros [e q] _. apply (IH fuel' q Hle').
    + intro e. rewrite !parseMultiplication_loop_eq.
      destruct ((index p <? numTokens p) && is_multiplicative (current p));
        [|reflexivity].
      intro Hrun.
      apply bind_stable; [assumption|apply (IH fuel' _ Hle')|].
      intros [e' q] _. apply (IH fuel' q Hle').
    + rewrite !parseParenthesis_eq.
      destruct (current p =? "(")%char.
      * intro Hrun.
        apply bind_stable; [assumption|apply (IH fuel' _ Hle')|reflexivity].
      * now apply parseNumber_stable.
Qed.

End Budget.

(** ** Consequences for whole streams *)

Lemma parseAddition_done : forall fuel p,
  well_formed p -> numTokens p < MSG_SIZE ->
  4 * remaining p + 4 <= Z.of_nat fuel ->
  exists e p', parseAddition fuel p = Done (e, p').
Proof.
  intros fuel p Hwf Hfit Hfuel.
  pose proof (proj1 (parsers_finish fuel p Hwf) Hfuel) as Hf.
  pose proof (proj1 (parsers_not_overrun fuel p Hwf Hfit)) as Ho.
  destruct (parseAddition fuel p) as [[e p']| |]; [eauto|contradiction..].
Qed.

Lemma fuel_for_enough : forall tokens,
  4 * remaining (start tokens) + 4 <= Z.of_nat (fuel_for (strlen tokens)).
Proof.
  intro t. unfold fuel_for, remaining, start. cbn [numTokens index].
  pose proof (strlen_nonneg t). lia.
Qed.

Lemma parse_finishes : forall tokens, parse tokens <> OutOfFuel.
Proof.
  intro t. unfold parse, parse_with.
  apply bind_not_out_of_fuel.
  - apply (parsers_finish _ _ (start_well_formed t)), fuel_for_enough.
  - intros [e q] _. discriminate.
Qed.

Lemma parse_with_stable : forall fuel tokens,
  (fuel_for (strlen tokens) <= fuel)%nat ->
  parse_with fuel tokens = parse tokens.
Proof.
  intros fuel t Hle. unfold parse, parse_with.
  apply bind_stable.
  - apply (parse_finishes t).
  - intros _. apply (parsers_stable _ _ (start t) Hle).
    apply (parsers_finish _ _ (start_well_formed t)), fuel_for_enough.
  - reflexivity.
Qed.

Lemma parse_done : forall tokens,
  strlen tokens < MSG_SIZE -> exists e, parse tokens = Done e.
Proof.
  intros t Hfit. unfold parse, parse_with.
  destruct (parseAddition_done (fuel_for (strlen t)) (start t)
              (start_well_formed t) Hfit (fuel_for_enough t)) as (e & p' & ->).
  simpl. eauto.
Qed.

(** ** Evaluation *)

Lemma left_nested_trans : forall a b c,
  left_nested a b -> left_nested b c -> left_nested a c.
Proof.
  intros a b c Hab Hbc. induction Hbc as [|t e r _ IH]; [assumption|].
  now constructor.
Qed.

Lemma parseAddition_loop_nests : forall fuel e0 p e p',
  parseAddition_loop fuel e0 p = Done (e, p') -> left_nested e0 e.
Proof.
  induction fuel as [|fuel IH]; intros e0 p e p' H; [discriminate H|].
  rewrite parseAddition_loop_eq in H.
  destruct ((index p <? numTokens p) && is_additive (current p)).
  - destruct (parseMultiplication fuel (advance p)) as [[r q]| |];
      simpl in H; try discriminate H.
    apply IH in H.
    eapply left_nested_trans; [|exact H].
    constructor. constructor.
  - injection H as <- _. constructor.
Qed.

Lemma tokenize_loop_not_null : forall s acc,
  Forall (fun c => is_accepted_char c = true) s ->
  tokenize_loop s acc <> Null.
Proof.
  induction s as [|c rest IH]; intros acc Hall; simpl.
  - destruct (Z.of_nat (length acc) <? MSG_SIZE); discriminate.
  - inversion Hall as [|? ? Hc Hrest]; subst.
    rewrite strchr_valid_tokens. unfold is_accepted_char in Hc.
    destruct (is_token_char c); simpl in *.
    + destruct (Z.of_nat (length acc) <? MSG_SIZE); [now apply IH|discriminate].
    + rewrite (skipped_not_nul c Hc). unfold is_skipped_char in Hc. rewrite Hc.
      now apply IH.
Qed.

Lemma tokenize_loop_no_tokens : forall s acc t,
  Forall (fun c => c <> NUL) s ->
  Exists (fun c => is_accepted_char c = false) s ->
  tokenize_loop s acc <> Tokens t.
Proof.
  intros s acc t Hnul Hbad Hrun.
  destruct (tokenize_loop_tokens s acc t Hnul Hrun) as (u & -> & Hu & Hlen).
  revert acc u Hrun Hu Hlen.
  induction s as [|c rest IH]; intros acc u Hrun Hu Hlen; [inversion Hbad|].
  inversion Hnul as [|? ? Hc Hrest]; subst.
  simpl in Hrun. rewrite strchr_valid_tokens in Hrun.
  apply Ascii.eqb_neq in Hc. rewrite Hc, orb_false_r in Hrun.
  assert (Htail : is_accepted_char c = true ->
                  Exists (fun c => is_accepted_char c = false) rest).
  { intro Hacc. inversion Hbad as [? ? Hhd|? ? Htl]; subst; [congruence|assumption]. }
  unfold is_accepted_char, is_skipped_char in Htail.
  destruct (is_token_char c).
  - destruct (Z.of_nat (length acc) <? MSG_SIZE); [|discriminate].
    destruct (tokenize_loop_tokens _ _ _ Hrest Hrun) as (u' & Eu & Hu' & Hlen').
    rewrite Eu in Hrun. apply (IH Hrest (Htail eq_refl) _ _ Hrun Hu').
    now rewrite <- Eu.
  - destruct ((c =? " ")%char || (c =? "=")%char); [|discriminate].
    apply (IH Hrest (Htail eq_refl) _ _ Hrun Hu Hlen).
Qed.

(** A line that fits the buffer is tokenized within it. *)
Lemma tokenize_in_bounds : forall str,
  strlen str < MSG_SIZE -> tokenize str <> OutOfBounds.
Proof.
  intros str Hfit. unfold tokenize, strlen in *.
  destruct (Forall_Exists_dec (fun c => is_accepted_char c = true)
              (fun c => bool_dec (is_accepted_char c) true) (cstring str))
    as [Hall|Hbad].
  - pose proof (filter_length_le is_token_char (cstring str)).
    rewrite (tokenize_loop_accepts _ [] Hall); [discriminate|simpl; lia].
  - rewrite tokenize_loop_rejects; [discriminate|apply cstring_no_nul| |simpl; lia].
    eapply Exists_impl; [|exact Hbad].
    intros c Hc. now apply not_true_iff_false.
Qed.


Lemma strchr_digits : forall c, strchr DIGITS c = isdigit c || (c =? NUL)%char.
Proof. intros [[] [] [] [] [] [] [] []]; reflexivity. Qed.

(** Where no digit is at the cursor, [parseNumber] copies nothing. *)
Lemma parseNumber_no_digit : forall fuel p,
  well_formed p ->
  (index p < numTokens p -> isdigit (current p) = false) ->
  parseNumber (S fuel) p = Done (NumberNode 0, p).
Proof.
  intros fuel p Hwf Hnd. unfold parseNumber. rewrite parseNumber_loop_eq.
  replace (strchr DIGITS (current p) && (Z.of_nat (length (@nil ascii)) <? MSG_SIZE)
           && (index p <? numTokens p)) with false; [reflexivity|].
  destruct (Z.ltb_spec (index p) (numTokens p)) as [Hlt|Hge];
    [|now rewrite andb_false_r].
  rewrite strchr_digits, (Hnd Hlt).
  pose proof (current_inside p Hwf Hlt) as Hc.
  apply Ascii.eqb_neq in Hc. now rewrite Hc.
Qed.

(** * The claims *)


(** C1: on the line ["5 / 0"] the program does not detect the zero
    denominator.  The line is tokenized and parsed to the division of 5 by
    0, and [calculate] executes [5 / 0], the operation C leaves undefined,
    before the test of [left / right ? right : 0]; nothing reports a
    division-by-zero error, and [main] has no path for one. *)
Theorem five_over_zero_is_divided :
  tokenize (line "5 / 0") = Tokens (line "5/0")
  /\ parse (line "5/0") = Done (OperatorNode "/" (NumberNode 5) (NumberNode 0))
  /\ calculate (OperatorNode "/" (NumberNode 5) (NumberNode 0)) = UndefinedDivision
  /\ answer (line "5 / 0") = DivisionFault.
Proof. repeat split. Qed.

(** C2: on the line ["7/2"] the program prints 2, the divisor, where
    integer division gives 3: a division node whose quotient is not zero
    evaluates to its right operand. *)
Theorem seven_over_two_prints_divisor :
  tokenize (line "7/2") = Tokens (line "7/2")
  /\ parse (line "7/2") = Done (OperatorNode "/" (NumberNode 7) (NumberNode 2))
  /\ calculate (OperatorNode "/" (NumberNode 7) (NumberNode 2)) = Value 2
  /\ answer (line "7/2") = Prints 2
  /\ Z.quot 7 2 = 3.
Proof. repeat split. Qed.


(** C3: a line that fits the [MSG_SIZE] buffer and holds only digits,
    [+ - * /], parentheses, spaces and [=] is tokenized, to its token
    characters in order; a line with any other character gets NULL, the
    invalid-input answer, and no token stream.  Whatever the length, the
    first kind of line never gets NULL and the second kind never gets a
    token stream. *)
Theorem tokenize_accepts_alphabet_only : forall str,
  (Forall (fun c => is_accepted_char c = true) (cstring str) ->
     tokenize str <> Null
     /\ (strlen str < MSG_SIZE ->
         tokenize str = Tokens (filter is_token_char (cstring str))))
  /\ (forall c, In c (cstring str) -> is_accepted_char c = false ->
        (forall t, tokenize str <> Tokens t)
        /\ (strlen str < MSG_SIZE -> tokenize str = Null)).
Proof.
  intro str. split.
  - intro Hall. split; [now apply tokenize_loop_not_null|].
    intro Hfit. unfold tokenize. apply (tokenize_loop_accepts _ [] Hall).
    pose proof (filter_length_le is_token_char (cstring str)).
    unfold strlen in Hfit. simpl. lia.
  - intros c Hin Hbad.
    assert (Hex : Exists (fun c => is_accepted_char c = false) (cstring str)).
    { apply Exists_exists. eauto. }
    split.
    + intro t. apply tokenize_loop_no_tokens; [apply cstring_no_nul|assumption].
    + intro Hfit. apply tokenize_loop_rejects;
        [apply cstring_no_nul|assumption|].
      unfold strlen in Hfit. simpl. lia.
Qed.

Lemma tokenize_accepts_alphabet_only_witness :
  (Forall (fun c => is_accepted_char c = true) (cstring (line "2 + 6 * 6 ="))
   /\ strlen (line "2 + 6 * 6 =") < MSG_SIZE
   /\ tokenize (line "2 + 6 * 6 =") = Tokens (line "2+6*6"))
  /\ (In "a"%char (cstring (line "2 a 2"))
      /\ is_accepted_char "a" = false
      /\ strlen (line "2 a 2") < MSG_SIZE
      /\ tokenize (line "2 a 2") = Null).
Proof.
  assert (H1 : Forall (fun c => is_accepted_char c = true)
                 (cstring (line "2 + 6 * 6 ="))).
  { simpl. repeat constructor. }
  assert (H2 : strlen (line "2 + 6 * 6 =") < MSG_SIZE) by reflexivity.
  assert (H3 : In "a"%char (cstring (line "2 a 2"))).
  { simpl. auto. }
  assert (H4 : strlen (line "2 a 2") < MSG_SIZE) by reflexivity.
  split.
  - split; [exact H1|]. split; [exact H2|].
    exact (proj2 (proj1 (tokenize_accepts_alphabet_only _) H1) H2).
  - split; [exact H3|]. split; [reflexivity|]. split; [exact H4|].
    exact (proj2 (proj2 (tokenize_accepts_alphabet_only _) _ H3 eq_refl) H4).
Defined.

(** C4: multiplication binds tighter than addition.  The line
    ["2 + 6 * 6 ="] is tokenized to [2+6*6], parsed to the sum of 2 and the
    product of 6 and 6, and evaluates to 38; [parseAddition] takes its
    operands from [parseMultiplication], so a product is a subtree of the
    sum. *)
Theorem multiplication_binds_tighter :
  tokenize (line "2 + 6 * 6 =") = Tokens (line "2+6*6")
  /\ parse (line "2+6*6")
     = Done (OperatorNode "+" (NumberNode 2)
               (OperatorNode "*" (NumberNode 6) (NumberNode 6)))
  /\ answer (line "2 + 6 * 6 =") = Prints 38
  /\ (forall fuel p,
        parseAddition (S fuel) p =
        bind (parseMultiplication fuel p)
             (fun r => parseAddition_loop fuel (fst r) (snd r))).
Proof.
  split; [reflexivity|]. split; [reflexivity|]. split; [reflexivity|].
  intros fuel p. apply parseAddition_eq.
Qed.

(** C5: operators of the same precedence associate to the left.  The line
    ["1-2-3"] parses as [(1-2)-3] and evaluates to -4; and whenever the
    loop of [parseAddition] returns, the running expression it was given is
    nested in the result along the left children: each turn makes the
    running expression the left child of the new operator node. *)
Theorem subtraction_left_associative :
  parse (line "1-2-3")
  = Done (OperatorNode "-" (OperatorNode "-" (NumberNode 1) (NumberNode 2))
            (NumberNode 3))
  /\ answer (line "1-2-3") = Prints (-4)
  /\ (forall fuel e p,
        index p < numTokens p -> is_additive (current p) = true ->
        parseAddition_loop (S fuel) e p =
        bind (parseMultiplication fuel (advance p))
             (fun r => parseAddition_loop fuel
                         (OperatorNode (current p) e (fst r)) (snd r)))
  /\ (forall fuel e0 p e p',
        parseAddition_loop fuel e0 p = Done (e, p') -> left_nested e0 e).
Proof.
  split; [reflexivity|]. split; [reflexivity|]. split.
  - intros fuel e p Hlt Hop. rewrite parseAddition_loop_eq.
    apply Z.ltb_lt in Hlt. now rewrite Hlt, Hop.
  - apply parseAddition_loop_nests.
Qed.

Lemma subtraction_left_associative_witness :
  (index (mkParserTok (line "1-2-3") 5 1) < numTokens (mkParserTok (line "1-2-3") 5 1)
   /\ is_additive (current (mkParserTok (line "1-2-3") 5 1)) = true
   /\ parseAddition_loop 9 (NumberNode 1) (mkParserTok (line "1-2-3") 5 1)
      = Done (OperatorNode "-" (OperatorNode "-" (NumberNode 1) (NumberNode 2))
                (NumberNode 3),
              mkParserTok (line "1-2-3") 5 5))
  /\ left_nested (NumberNode 1)
       (OperatorNode "-" (OperatorNode "-" (NumberNode 1) (NumberNode 2))
          (NumberNode 3)).
Proof.
  assert (H1 : index (mkParserTok (line "1-2-3") 5 1)
               < numTokens (mkParserTok (line "1-2-3") 5 1)) by reflexivity.
  assert (H2 : is_additive (current (mkParserTok (line "1-2-3") 5 1)) = true)
    by reflexivity.
  split.
  - split; [exact H1|]. split; [exact H2|].
    rewrite (proj1 (proj2 (proj2 subtraction_left_associative)) 8%nat _ _ H1 H2).
    reflexivity.
  - apply (proj2 (proj2 (proj2 subtraction_left_associative))
             9%nat (NumberNode 1) (mkParserTok (line "1-2-3") 5 1) _
             (mkParserTok (line "1-2-3") 5 5)).
    reflexivity.
Defined.

(** C6: the cursor invariant.  Started on a cursor whose index is in
    [[0, numTokens]], with [numTokens] the length of the stream, every
    sub-parser and each of the two loops returns a cursor over the same
    stream whose index is again in that range and is not smaller than the
    index it started from.  The nested calls are calls of these same
    functions, so the invariant holds at every call and return of a
    parse. *)
Theorem cursor_invariant : forall fuel p e p',
  well_formed p ->
  (parseAddition fuel p = Done (e, p')
   \/ parseMultiplication fuel p = Done (e, p')
   \/ parseParenthesis fuel p = Done (e, p')
   \/ parseNumber fuel p = Done (e, p')
   \/ (exists e0, parseAddition_loop fuel e0 p = Done (e, p'))
   \/ (exists e0, parseMultiplication_loop fuel e0 p = Done (e, p'))) ->
  0 <= index p' <= numTokens p'
  /\ numTokens p' = strlen (tokens p')
  /\ tokens p' = tokens p
  /\ numTokens p' = numTokens p
  /\ index p <= index p'.
Proof.
  intros fuel p e p' Hwf H.
  destruct (parsers_preserve fuel) as (Pa & Pal & Pm & Pml & Pp).
  assert (Hinv : well_formed p' /\ follows p p').
  { destruct H as [H|[H|[H|[H|[[e0 H]|[e0 H]]]]]].
    - exact (Pa _ _ _ Hwf H).
    - exact (Pm _ _ _ Hwf H).
    - exact (Pp _ _ _ Hwf H).
    - exact (parseNumber_preserves fuel _ _ _ Hwf H).
    - exact (Pal e0 _ _ _ Hwf H).
    - exact (Pml e0 _ _ _ Hwf H). }
  destruct Hinv as [[Hn Hr] (Ht & Hn' & Hi)]. auto.
Qed.

Lemma cursor_invariant_witness :
  well_formed (start (line "(2+6)*6"))
  /\ parseAddition 32 (start (line "(2+6)*6"))
     = Done (OperatorNode "*" (OperatorNode "+" (NumberNode 2) (NumberNode 6))
               (NumberNode 6),
             mkParserTok (line "(2+6)*6") 7 7)
  /\ 0 <= 7 <= 7.
Proof.
  assert (Hwf : well_formed (start (line "(2+6)*6"))).
  { split; [reflexivity|]. vm_compute. split; discriminate. }
  assert (Hrun : parseAddition 32 (start (line "(2+6)*6"))
                 = Done (OperatorNode "*"
                           (OperatorNode "+" (NumberNode 2) (NumberNode 6))
                           (NumberNode 6),
                         mkParserTok (line "(2+6)*6") 7 7)) by reflexivity.
  split; [exact Hwf|]. split; [exact Hrun|].
  exact (proj1 (cursor_invariant 32 _ _ _ Hwf (or_introl Hrun))).
Defined.

(** C7: parsing and evaluation terminate.  For every token stream the
    budget [fuel_for], linear in the length of the stream, is enough for
    the four mutually recursive sub-parsers: the parse does not run out of
    it, and a larger budget gives the same outcome.  For a stream that fits
    the token buffer the outcome is an expression tree, and [calculate],
    which recurses on the subtrees only, has a result on it. *)
Theorem parse_and_calculate_terminate : forall tokens,
  parse tokens <> OutOfFuel
  /\ (forall fuel, (fuel_for (strlen tokens) <= fuel)%nat ->
                   parse_with fuel tokens = parse tokens)
  /\ (strlen tokens < MSG_SIZE ->
      exists e r, parse tokens = Done e /\ calculate e = r).
Proof.
  intro t. split; [apply parse_finishes|]. split.
  - intros fuel Hle. now apply parse_with_stable.
  - intro Hfit. destruct (parse_done t Hfit) as [e He].
    exists e, (calculate e). auto.
Qed.

Lemma parse_and_calculate_terminate_witness :
  (fuel_for (strlen (line "((1+2)*(3-4))/5")) <= 100)%nat
  /\ parse_with 100 (line "((1+2)*(3-4))/5") = parse (line "((1+2)*(3-4))/5")
  /\ strlen (line "((1+2)*(3-4))/5") < MSG_SIZE
  /\ exists e r, parse (line "((1+2)*(3-4))/5") = Done e /\ calculate e = r.
Proof.
  assert (H1 : (fuel_for (strlen (line "((1+2)*(3-4))/5")) <= 100)%nat).
  { vm_compute. lia. }
  assert (H2 : strlen (line "((1+2)*(3-4))/5") < MSG_SIZE) by reflexivity.
  split; [exact H1|].
  split; [exact (proj1 (proj2 (parse_and_calculate_terminate _)) 100%nat H1)|].
  split; [exact H2|].
  exact (proj2 (proj2 (parse_and_calculate_terminate _)) H2).
Defined.

(** C8: an opening parenthesis without its closing one is tolerated.  On a
    cursor at ['('], [parseParenthesis] consumes it, parses a whole
    addition, and then consumes a [')'] only when that is the current
    token; otherwise it returns the cursor as the addition left it.  No
    stream makes the parser fail: every stream that fits the token buffer,
    with or without unmatched parentheses, gets a tree.  [(2+6] parses as
    the sum and evaluates to 8. *)
Theorem unmatched_parenthesis_tolerated :
  (forall fuel p,
     well_formed p -> numTokens p < MSG_SIZE ->
     current p = "("%char ->
     4 * remaining p <= Z.of_nat fuel ->
     exists e q,
       parseAddition fuel (advance p) = Done (e, q)
       /\ parseParenthesis (S fuel) p
          = Done (e, if (current q =? ")")%char then advance q else q))
  /\ (forall tokens, strlen tokens < MSG_SIZE -> exists e, parse tokens = Done e)
  /\ parse (line "(2+6") = Done (OperatorNode "+" (NumberNode 2) (NumberNode 6))
  /\ answer (line "(2+6") = Prints 8.
Proof.
  split; [|split; [exact parse_done|split; reflexivity]].
  intros fuel p Hwf Hfit Hopen Hfuel.
  assert (Ec : (current p =? "(")%char = true) by now apply Ascii.eqb_eq.
  destruct (advance_inside p Hwf (open_inside p Hwf Ec)) as [Hwf1 _].
  destruct (parseAddition_done fuel (advance p) Hwf1 Hfit) as (e & q & Hrun).
  { rewrite remaining_advance. lia. }
  exists e, q. split; [assumption|].
  rewrite parseParenthesis_eq, Ec, Hrun. reflexivity.
Qed.

Lemma unmatched_parenthesis_tolerated_witness :
  well_formed (start (line "(2+6"))
  /\ numTokens (start (line "(2+6")) < MSG_SIZE
  /\ current (start (line "(2+6")) = "("%char
  /\ 4 * remaining (start (line "(2+6")) <= Z.of_nat 16
  /\ (exists e q,
        parseAddition 16 (advance (start (line "(2+6"))) = Done (e, q)
        /\ parseParenthesis 17 (start (line "(2+6"))
           = Done (e, if (current q =? ")")%char then advance q else q))
  /\ strlen (line "(2+6") < MSG_SIZE
  /\ exists e, parse (line "(2+6") = Done e.
Proof.
  assert (Hwf : well_formed (start (line "(2+6"))).
  { split; [reflexivity|]. vm_compute. split; discriminate. }
  assert (Hfit : numTokens (start (line "(2+6")) < MSG_SIZE) by reflexivity.
  assert (Hfuel : 4 * remaining (start (line "(2+6")) <= Z.of_nat 16).
  { vm_compute. discriminate. }
  split; [exact Hwf|]. split; [exact Hfit|]. split; [reflexivity|].
  split; [exact Hfuel|].
  split; [exact (proj1 unmatched_parenthesis_tolerated 16%nat _ Hwf Hfit eq_refl Hfuel)|].
  split; [exact Hfit|].
  exact (proj1 (proj2 unmatched_parenthesis_tolerated) _ Hfit).
Defined.

(** C9: tokenizing is idempotent on its own outputs.  A stream, that is a
    string of token characters only (no blank, no [=]) that fits the token
    buffer, is returned as it is; the strings [tokenize] returns are such
    streams, so tokenizing the result of a successful [tokenize] gives that
    result again. *)
Theorem tokenize_idempotent :
  (forall t,
     Forall (fun c => is_token_char c = true) t ->
     Z.of_nat (length t) < MSG_SIZE ->
     tokenize t = Tokens t)
  /\ (forall str t, tokenize str = Tokens t -> tokenize t = Tokens t).
Proof.
  split; [exact tokenize_token_chars|].
  intros str t H. destruct (tokenize_stream str t H) as [Htok Hlen].
  now apply tokenize_token_chars.
Qed.

Lemma tokenize_idempotent_witness :
  (Forall (fun c => is_token_char c = true) (line "(2+6)*6")
   /\ Z.of_nat (length (line "(2+6)*6")) < MSG_SIZE
   /\ tokenize (line "(2+6)*6") = Tokens (line "(2+6)*6"))
  /\ (tokenize (line "2 + 6 * 6 =") = Tokens (line "2+6*6")
      /\ tokenize (line "2+6*6") = Tokens (line "2+6*6")).
Proof.
  assert (H1 : Forall (fun c => is_token_char c = true) (line "(2+6)*6")).
  { simpl. repeat constructor. }
  assert (H2 : Z.of_nat (length (line "(2+6)*6")) < MSG_SIZE) by reflexivity.
  assert (H3 : tokenize (line "2 + 6 * 6 =") = Tokens (line "2+6*6"))
    by reflexivity.
  split.
  - split; [exact H1|]. split; [exact H2|].
    exact (proj1 tokenize_idempotent _ H1 H2).
  - split; [exact H3|]. exact (proj2 tokenize_idempotent _ _ H3).
Defined.

(** C10: a number is asked for where there is no digit.  When the cursor
    is at the end of the stream or on a character that is not a digit,
    [parseNumber] consumes nothing and returns the number node of value 0,
    the conversion of the empty digit run.  So the empty stream parses, to
    that node, and the empty line evaluates to 0; in [1+*2] the missing
    operand of [*] is a 0. *)
Theorem empty_number_is_zero :
  (forall fuel p,
     well_formed p ->
     (index p < numTokens p -> isdigit (current p) = false) ->
     parseNumber (S fuel) p = Done (NumberNode 0, p))
  /\ atoi [] = 0
  /\ parse [] = Done (NumberNode 0)
  /\ calculate (NumberNode 0) = Value 0
  /\ answer [] = Prints 0
  /\ parse (line "1+*2")
     = Done (OperatorNode "+" (NumberNode 1)
               (OperatorNode "*" (NumberNode 0) (NumberNode 2))).
Proof.
  split; [exact parseNumber_no_digit|]. repeat split.
Qed.

Lemma empty_number_is_zero_witness :
  well_formed (mkParserTok (line "1+*2") 4 2)
  /\ (index (mkParserTok (line "1+*2") 4 2) < numTokens (mkParserTok (line "1+*2") 4 2) ->
      isdigit (current (mkParserTok (line "1+*2") 4 2)) = false)
  /\ parseNumber 1 (mkParserTok (line "1+*2") 4 2)
     = Done (NumberNode 0, mkParserTok (line "1+*2") 4 2).
Proof.
  assert (Hwf : well_formed (mkParserTok (line "1+*2") 4 2)).
  { split; [reflexivity|]. vm_compute. split; discriminate. }
  assert (Hnd : index (mkParserTok (line "1+*2") 4 2)
                < numTokens (mkParserTok (line "1+*2") 4 2) ->
                isdigit (current (mkParserTok (line "1+*2") 4 2)) = false).
  { intros _. reflexivity. }
  split; [exact Hwf|]. split; [exact Hnd|].
  exact (proj1 empty_number_is_zero 0%nat _ Hwf Hnd).
Defined.

(** * Line framing *)

Section Framing.

Lemma cstring_app_nul : forall a b, cstring (a ++ NUL :: b) = cstring a.
Proof.
  induction a as [|c a IH]; intro b; simpl; [reflexivity|].
  destruct (c =? NUL)%char; [reflexivity|]. now rewrite IH.
Qed.

Lemma cstring_length_le : forall a, (length (cstring a) <= length a)%nat.
Proof.
  induction a as [|c a IH]; simpl; [lia|].
  destruct (c =? NUL)%char; simpl; lia.
Qed.

Lemma store_length : forall buf i c, length (store buf i c) = length buf.
Proof.
  intros buf i c. unfold store.
  destruct ((0 <=? i) && (i <? Z.of_nat (length buf))) eqn:E; [|reflexivity].
  apply andb_prop in E as [Hlo Hhi].
  apply Z.leb_le in Hlo. apply Z.ltb_lt in Hhi.
  rewrite length_app. cbn [length]. rewrite length_firstn, length_skipn. lia.
Qed.

Lemma store_inside : forall buf i c,
  0 <= i < Z.of_nat (length buf) ->
  store buf i c = firstn (Z.to_nat i) buf ++ c :: skipn (S (Z.to_nat i)) buf.
Proof.
  intros buf i c [Hlo Hhi]. unfold store.
  apply Z.leb_le in Hlo. apply Z.ltb_lt in Hhi. now rewrite Hlo, Hhi.
Qed.

(** The string of a buffer terminated at [i] is the string of its first
    [i] bytes. *)
Lemma cstring_store_nul : forall buf i,
  0 <= i < Z.of_nat (length buf) ->
  cstring (store buf i NUL) = cstring (firstn (Z.to_nat i) buf).
Proof.
  intros buf i Hi. rewrite (store_inside buf i NUL Hi). apply cstring_app_nul.
Qed.

Lemma strlen_store_nul : forall buf i,
  0 <= i < Z.of_nat (length buf) -> strlen (store buf i NUL) <= i.
Proof.
  intros buf i Hi. unfold strlen. rewrite (cstring_store_nul buf i Hi).
  pose proof (cstring_length_le (firstn (Z.to_nat i) buf)) as H.
  rewrite length_firstn in H. lia.
Qed.

Lemma firstn_store_next : forall buf i c,
  0 <= i < Z.of_nat (length buf) ->
  firstn (Z.to_nat (i + 1)) (store buf i c) = firstn (Z.to_nat i) buf ++ [c].
Proof.
  intros buf i c Hi. rewrite (store_inside buf i c Hi).
  assert (Hlen : length (firstn (Z.to_nat i) buf) = Z.to_nat i).
  { rewrite length_firstn. lia. }
  rewrite firstn_app, Hlen.
  replace (Z.to_nat (i + 1) - Z.to_nat i)%nat with 1%nat by lia.
  rewrite firstn_all2 by lia. reflexivity.
Qed.

Lemma k_msgq_put_length : forall q m,
  Z.of_nat (length q) <= QUEUE_LENGTH ->
  Z.of_nat (length (k_msgq_put q m)) <= QUEUE_LENGTH.
Proof.
  intros q m H. unfold k_msgq_put.
  destruct (Z.ltb_spec (Z.of_nat (length q)) QUEUE_LENGTH); [|assumption].
  rewrite length_app. simpl. lia.
Qed.

Lemma k_msgq_put_Forall : forall (P : list ascii -> Prop) q m,
  Forall P q -> P m -> Forall P (k_msgq_put q m).
Proof.
  intros P q m Hq Hm. unfold k_msgq_put.
  destruct (Z.of_nat (length q) <? QUEUE_LENGTH); [|assumption].
  apply Forall_app. auto.
Qed.

Lemma uart_reset_ok : uart_ok uart_reset.
Proof.
  unfold uart_ok, uart_reset. simpl.
  repeat split; try constructor; vm_compute; discriminate.
Qed.

Lemma serial_char_ok : forall u c, uart_ok u -> uart_ok (serial_char u c).
Proof.
  intros u c (Hlen & Hpos & Hq & Hmsgs). unfold serial_char.
  assert (Hin : 0 <= rx_buf_pos u < Z.of_nat (length (rx_buf u))).
  { unfold MSG_SIZE in *. lia. }
  destruct (((c =? LF)%char || (c =? CR)%char) && (0 <? rx_buf_pos u)).
  - unfold uart_ok. cbn [rx_buf rx_buf_pos uart_msgq]. rewrite store_length.
    split; [assumption|]. split; [unfold MSG_SIZE; lia|].
    split; [now apply k_msgq_put_length|].
    apply k_msgq_put_Forall; [assumption|].
    rewrite store_length. split; [assumption|].
    pose proof (strlen_store_nul _ _ Hin). lia.
  - destruct (Z.ltb_spec (rx_buf_pos u) (MSG_SIZE - 1)).
    + unfold uart_ok. cbn [rx_buf rx_buf_pos uart_msgq]. rewrite store_length.
      repeat split; try assumption; lia.
    + unfold uart_ok. auto.
Qed.

Lemma serial_chars_ok : forall input u,
  uart_ok u -> uart_ok (fold_left serial_char input u).
Proof.
  induction input as [|c input IH]; intros u Hu; simpl; [assumption|].
  apply IH. now apply serial_char_ok.
Qed.


(** A character that does not end a line is stored while there is room,
    and dropped otherwise; so is any character received on an empty
    buffer, a line end included. *)
Lemma serial_char_stores : forall u c,
  uart_ok u ->
  is_terminator c = false \/ rx_buf_pos u = 0 ->
  uart_ok (serial_char u c)
  /\ uart_msgq (serial_char u c) = uart_msgq u
  /\ line_so_far (serial_char u c)
     = firstn (Z.to_nat (MSG_SIZE - 1)) (line_so_far u ++ [c]).
Proof.
  intros u c Hu Hc. split; [now apply serial_char_ok|].
  destruct Hu as (Hlen & Hpos & _).
  assert (Hin : 0 <= rx_buf_pos u < Z.of_nat (length (rx_buf u))).
  { unfold MSG_SIZE in *. lia. }
  assert (Hsofar : length (line_so_far u) = Z.to_nat (rx_buf_pos u)).
  { unfold line_so_far. rewrite length_firstn. lia. }
  unfold serial_char.
  replace (((c =? LF)%char || (c =? CR)%char) && (0 <? rx_buf_pos u)) with false.
  2:{ destruct Hc as [Hc| ->]; [unfold is_terminator in Hc; now rewrite Hc|].
      now rewrite andb_false_r. }
  destruct (Z.ltb_spec (rx_buf_pos u) (MSG_SIZE - 1)) as [Hroom|Hfull].
  - split; [reflexivity|]. unfold line_so_far at 1.
    cbn [rx_buf rx_buf_pos].
    rewrite (firstn_store_next _ _ c Hin). fold (line_so_far u).
    rewrite firstn_all2; [reflexivity|].
    rewrite length_app, Hsofar. cbn [length]. lia.
  - split; [reflexivity|].
    rewrite firstn_app, Hsofar.
    replace (Z.to_nat (MSG_SIZE - 1) - Z.to_nat (rx_buf_pos u))%nat with 0%nat by lia.
    rewrite firstn_O, app_nil_r. rewrite firstn_all2; [reflexivity|]. lia.
Qed.

Lemma firstn_firstn_app : forall (k : nat) (x l : list ascii),
  firstn k (firstn k x ++ l) = firstn k (x ++ l).
Proof.
  intros k x l. rewrite !firstn_app, firstn_firstn, Nat.min_id, length_firstn.
  destruct (Nat.le_gt_cases k (length x)) as [Hge|Hlt].
  - rewrite Nat.min_l by assumption.
    replace (k - k)%nat with 0%nat by lia.
    replace (k - length x)%nat with 0%nat by lia. reflexivity.
  - rewrite Nat.min_r by lia.
    rewrite (firstn_all2 x) by lia. reflexivity.
Qed.

Lemma serial_chars_store : forall l u,
  uart_ok u ->
  Forall (fun c => is_terminator c = false) l ->
  uart_ok (fold_left serial_char l u)
  /\ uart_msgq (fold_left serial_char l u) = uart_msgq u
  /\ line_so_far (fold_left serial_char l u)
     = firstn (Z.to_nat (MSG_SIZE - 1)) (line_so_far u ++ l).
Proof.
  induction l as [|c l IH]; intros u Hu Hl; cbn [fold_left].
  - split; [assumption|]. split; [reflexivity|].
    rewrite app_nil_r. rewrite firstn_all2; [reflexivity|].
    destruct Hu as (Hlen & Hpos & _).
    unfold line_so_far. rewrite length_firstn. lia.
  - inversion Hl as [|? ? Hc Hl']; subst.
    destruct (serial_char_stores u c Hu (or_introl Hc)) as (Hu1 & Hq1 & Hline1).
    destruct (IH _ Hu1 Hl') as (Hu2 & Hq2 & Hline2).
    split; [assumption|]. split; [congruence|].
    rewrite Hline2, Hline1, firstn_firstn_app, <- app_assoc. reflexivity.
Qed.

(** A line end received after at least one character sends the buffer,
    terminated, and empties it. *)
Lemma serial_char_sends : forall u c,
  uart_ok u -> is_terminator c = true -> 0 < rx_buf_pos u ->
  serial_char u c
  = mkUartState (store (rx_buf u) (rx_buf_pos u) NUL) 0
      (k_msgq_put (uart_msgq u) (store (rx_buf u) (rx_buf_pos u) NUL))
  /\ cstring (store (rx_buf u) (rx_buf_pos u) NUL) = cstring (line_so_far u).
Proof.
  intros u c (Hlen & Hpos & _) Hc Hgt. unfold serial_char.
  unfold is_terminator in Hc. rewrite Hc.
  apply Z.ltb_lt in Hgt. rewrite Hgt. simpl. split; [reflexivity|].
  apply cstring_store_nul. apply Z.ltb_lt in Hgt. unfold MSG_SIZE in *. lia.
Qed.

End Framing.

Section Lines.


Lemma line_so_far_length : forall u,
  uart_ok u -> Z.of_nat (length (line_so_far u)) = rx_buf_pos u.
Proof.
  intros u (Hlen & Hpos & _). unfold line_so_far. rewrite length_firstn.
  unfold MSG_SIZE in *. lia.
Qed.

(** A first character, whatever it is, then characters that are not line
    ends, then a line end: one message, holding the first [MSG_SIZE - 1]
    of these characters. *)
Lemma serial_line : forall u c l t,
  uart_ok u -> rx_buf_pos u = 0 ->
  Forall (fun c => is_terminator c = false) l ->
  is_terminator t = true ->
  exists m,
    fold_left serial_char (c :: l ++ [t]) u
    = mkUartState m 0 (k_msgq_put (uart_msgq u) m)
    /\ Z.of_nat (length m) = MSG_SIZE
    /\ cstring m = cstring (firstn (Z.to_nat (MSG_SIZE - 1)) (c :: l)).
Proof.
  intros u c l t Hu Hpos Hl Ht.
  destruct (serial_char_stores u c Hu (or_intror Hpos)) as (Hu1 & Hq1 & Hline1).
  assert (Hempty : line_so_far u = []).
  { unfold line_so_far. now rewrite Hpos. }
  rewrite Hempty in Hline1. cbn [app] in Hline1.
  destruct (serial_chars_store l _ Hu1 Hl) as (Hu2 & Hq2 & Hline2).
  rewrite Hline1, firstn_firstn_app in Hline2. cbn [app] in Hline2.
  set (u2 := fold_left serial_char l (serial_char u c)) in *.
  assert (Hgt : 0 < rx_buf_pos u2).
  { rewrite <- (line_so_far_length u2 Hu2), Hline2. vm_compute. reflexivity. }
  destruct (serial_char_sends u2 t Hu2 Ht Hgt) as [Hsend Hstr].
  exists (store (rx_buf u2) (rx_buf_pos u2) NUL).
  cbn [fold_left]. rewrite fold_left_app. cbn [fold_left]. fold u2.
  rewrite Hsend, Hq2, Hq1. split; [reflexivity|].
  split; [rewrite store_length; apply Hu2|].
  now rewrite Hstr, Hline2.
Qed.

Lemma terminator_not_accepted : forall c,
  is_terminator c = true -> is_accepted_char c = false /\ c <> NUL.
Proof.
  intros c H. unfold is_terminator in H. apply orb_prop in H.
  destruct H as [H|H]; apply Ascii.eqb_eq in H; subst;
    (split; [reflexivity|discriminate]).
Qed.

(** A buffer whose string starts with a line end is answered
    ["invalid input"]. *)
Lemma answer_after_terminator : forall m c rest,
  strlen m < MSG_SIZE ->
  is_terminator c = true ->
  cstring m = cstring (c :: rest) ->
  answer m = InvalidInput.
Proof.
  intros m c rest Hfit Hc Hm.
  destruct (terminator_not_accepted c Hc) as [Hbad Hnul].
  unfold answer, tokenize. rewrite tokenize_loop_rejects; [reflexivity| | |].
  - apply cstring_no_nul.
  - rewrite Hm. simpl. apply Ascii.eqb_neq in Hnul. rewrite Hnul.
    now apply Exists_cons_hd.
  - unfold strlen in Hfit. simpl. lia.
Qed.

End Lines.



(** X2: a line received on an empty buffer, none of its characters a line
    end, followed by [CR] or [LF], puts one message on the queue (unless
    the queue is full) and empties the buffer; the string of the message
    is the first [MSG_SIZE - 1] characters of the line, the characters
    beyond them are dropped. *)
Theorem serial_cb_frames_line : forall u c l t,
  uart_ok u -> rx_buf_pos u = 0 ->
  Forall (fun c => is_terminator c = false) (c :: l) ->
  is_terminator t = true ->
  exists m,
    serial_cb true true (c :: l ++ [t]) u
    = mkUartState m 0 (k_msgq_put (uart_msgq u) m)
    /\ Z.of_nat (length m) = MSG_SIZE
    /\ cstring m = cstring (firstn 31 (c :: l)).
Proof.
  intros u c l t Hu Hpos Hl Ht. inversion Hl as [|? ? _ Hl']; subst.
  exact (serial_line u c l t Hu Hpos Hl' Ht).
Qed.

Lemma serial_cb_frames_line_witness :
  uart_ok uart_reset /\ rx_buf_pos uart_reset = 0
  /\ Forall (fun c => is_terminator c = false)
       (line "1111111111+2222222222+3333333333+4")
  /\ is_terminator LF = true
  /\ exists m,
       serial_cb true true (line "1111111111+2222222222+3333333333+4" ++ [LF])
         uart_reset
       = mkUartState m 0 (k_msgq_put (uart_msgq uart_reset) m)
       /\ Z.of_nat (length m) = MSG_SIZE
       /\ cstring m = cstring (firstn 31 (line "1111111111+2222222222+3333333333+4")).
Proof.
  assert (Hl : Forall (fun c => is_terminator c = false)
                 (line "1111111111+2222222222+3333333333+4")).
  { simpl. repeat constructor. }
  split; [exact uart_reset_ok|]. split; [reflexivity|]. split; [exact Hl|].
  split; [reflexivity|].
  exact (serial_cb_frames_line uart_reset _ _ LF uart_reset_ok eq_refl Hl eq_refl).
Defined.

(** X3: a line end received on an empty buffer is stored as a character
    of the next line.  So when lines end in [CR LF], or after an empty
    line, the message that follows starts with a line end, and the program
    answers it ["invalid input"] whatever else it holds. *)
Theorem line_end_on_empty_buffer_is_kept : forall u c l t,
  uart_ok u -> rx_buf_pos u = 0 ->
  is_terminator c = true ->
  Forall (fun c => is_terminator c = false) l ->
  is_terminator t = true ->
  exists m,
    serial_cb true true (c :: l ++ [t]) u
    = mkUartState m 0 (k_msgq_put (uart_msgq u) m)
    /\ cstring m = cstring (firstn 31 (c :: l))
    /\ answer m = InvalidInput.
Proof.
  intros u c l t Hu Hpos Hc Hl Ht.
  destruct (serial_line u c l t Hu Hpos Hl Ht) as (m & Hrun & Hlen & Hstr).
  exists m. split; [exact Hrun|]. split; [exact Hstr|].
  apply (answer_after_terminator m c (firstn 30 l)); [|assumption|exact Hstr].
  assert (Hok : uart_ok (fold_left serial_char (c :: l ++ [t]) u))
    by now apply serial_chars_ok.
  rewrite Hrun in Hok.
  destruct Hok as (Hlen' & _). cbn [rx_buf] in Hlen'.
  unfold strlen. rewrite Hstr.
  pose proof (cstring_length_le (firstn (Z.to_nat (MSG_SIZE - 1)) (c :: l))) as H1.
  rewrite length_firstn in H1. unfold MSG_SIZE in *. lia.
Qed.

Lemma line_end_on_empty_buffer_is_kept_witness :
  uart_ok uart_reset /\ rx_buf_pos uart_reset = 0
  /\ is_terminator LF = true
  /\ Forall (fun c => is_terminator c = false) (line "2+2")
  /\ is_terminator CR = true
  /\ exists m,
       serial_cb true true (LF :: line "2+2" ++ [CR]) uart_reset
       = mkUartState m 0 (k_msgq_put (uart_msgq uart_reset) m)
       /\ cstring m = cstring (firstn 31 (LF :: line "2+2"))
       /\ answer m = InvalidInput.
Proof.
  assert (Hl : Forall (fun c => is_terminator c = false) (line "2+2")).
  { simpl. repeat constructor. }
  split; [exact uart_reset_ok|]. split; [reflexivity|]. split; [reflexivity|].
  split; [exact Hl|]. split; [reflexivity|].
  exact (line_end_on_empty_buffer_is_kept uart_reset LF _ CR uart_reset_ok
           eq_refl eq_refl Hl eq_refl).
Defined.

(** * The loop of [main] *)

Section MainLoop.

Lemma nat_of_ascii_nul : forall c, nat_of_ascii c = 0%nat -> c = NUL.
Proof.
  intros c H. rewrite <- (ascii_nat_embedding c), H. reflexivity.
Qed.

Lemma nat_of_ascii_inj : forall c d, nat_of_ascii c = nat_of_ascii d -> c = d.
Proof.
  intros c d H.
  rewrite <- (ascii_nat_embedding c), <- (ascii_nat_embedding d), H. reflexivity.
Qed.

Lemma strcmp_chars_zero : forall a b,
  Forall (fun c => c <> NUL) a -> Forall (fun c => c <> NUL) b ->
  (strcmp_chars a b = 0 <-> a = b).
Proof.
  induction a as [|c a IH]; intros b Ha Hb.
  - destruct b as [|d b]; simpl; [tauto|].
    inversion Hb as [|? ? Hd _]; subst.
    split; [|discriminate]. intro H.
    elim Hd. apply nat_of_ascii_nul. lia.
  - inversion Ha as [|? ? Hc Ha']; subst.
    destruct b as [|d b]; simpl.
    + split; [|discriminate]. intro H.
      elim Hc. apply nat_of_ascii_nul. lia.
    + inversion Hb as [|? ? Hd Hb']; subst.
      destruct (Ascii.eqb_spec c d) as [->|Hne].
      * rewrite (IH b Ha' Hb'). split; [now intros ->|now intros [= ->]].
      * split; [|now intros [= -> ->]]. intro H.
        elim Hne. apply nat_of_ascii_inj. lia.
Qed.

(** [strcmp] is zero exactly on buffers that hold the same string. *)
Lemma strcmp_zero : forall a b, strcmp a b = 0 <-> cstring a = cstring b.
Proof.
  intros a b. unfold strcmp. apply strcmp_chars_zero; apply cstring_no_nul.
Qed.

Lemma strcmp_exit : forall m,
  (strcmp EXIT m =? 0) = true <-> cstring m = EXIT.
Proof.
  intro m. rewrite Z.eqb_eq, strcmp_zero.
  change (cstring EXIT) with EXIT. split; intro H; now rewrite H.
Qed.

Lemma main_loop_exit : forall e post,
  cstring e = EXIT -> main_loop (e :: post) = ([], Exited).
Proof.
  intros e post He. apply strcmp_exit in He. simpl. now rewrite He.
Qed.

Lemma main_loop_after_exit : forall pre e post,
  cstring e = EXIT -> main_loop (pre ++ e :: post) = main_loop (pre ++ [e]).
Proof.
  induction pre as [|m pre IH]; intros e post He.
  - simpl app. now rewrite !main_loop_exit.
  - simpl. destruct (strcmp EXIT m =? 0); [reflexivity|].
    rewrite (IH e post He). reflexivity.
Qed.

Lemma main_loop_not_waiting_at_exit : forall pre e,
  cstring e = EXIT -> snd (main_loop (pre ++ [e])) <> Waiting.
Proof.
  induction pre as [|m pre IH]; intros e He.
  - simpl app. rewrite main_loop_exit by assumption. discriminate.
  - simpl. destruct (strcmp EXIT m =? 0); [discriminate|].
    specialize (IH e He).
    destruct (answer m); try discriminate;
      destruct (main_loop (pre ++ [e])); assumption.
Qed.

(** A buffer that does not hold ["exit"] is echoed, followed by a
    space. *)
Lemma main_loop_echo : forall m rest,
  cstring m <> EXIT ->
  exists out, fst (main_loop (m :: rest)) = cstring m ++ " "%char :: out.
Proof.
  intros m rest Hm. simpl.
  destruct (strcmp EXIT m =? 0) eqn:E; [apply strcmp_exit in E; contradiction|].
  unfold print_uart. change (cstring [" "%char]) with [" "%char].
  destruct (answer m); try (destruct (main_loop rest) as [out st]);
    simpl; rewrite <- ?app_assoc; simpl; eauto.
  all: exists []; now rewrite app_nil_r.
Qed.


End MainLoop.

(** X4: the loop of [main] leaves at the first message whose string is
    exactly ["exit"]: that message is not echoed, the messages after it are
    not answered, and the loop no longer waits.  Any other message is
    echoed, followed by a space, before its answer. *)
Theorem exit_ends_the_loop :
  (forall pre e post,
     cstring e = EXIT ->
     main_loop (pre ++ e :: post) = main_loop (pre ++ [e])
     /\ main_loop (e :: post) = ([], Exited)
     /\ snd (main_loop (pre ++ e :: post)) <> Waiting)
  /\ (forall m rest,
        cstring m <> EXIT ->
        exists out, fst (main_loop (m :: rest)) = cstring m ++ " "%char :: out).
Proof.
  split.
  - intros pre e post He.
    split; [now apply main_loop_after_exit|].
    split; [now apply main_loop_exit|].
    rewrite main_loop_after_exit by assumption.
    now apply main_loop_not_waiting_at_exit.
  - apply main_loop_echo.
Qed.

Lemma exit_ends_the_loop_witness :
  (cstring (line "exit") = EXIT
   /\ main_loop ([line "1+1"] ++ line "exit" :: [line "2+2"])
      = main_loop ([line "1+1"] ++ [line "exit"]))
  /\ (cstring (line "exit ") <> EXIT
      /\ exists out,
           fst (main_loop [line "exit "]) = cstring (line "exit ") ++ " "%char :: out).
Proof.
  assert (H1 : cstring (line "exit") = EXIT) by reflexivity.
  assert (H2 : cstring (line "exit ") <> EXIT) by discriminate.
  split.
  - split; [exact H1|].
    exact (proj1 (proj1 exit_ends_the_loop [line "1+1"] _ [line "2+2"] H1)).
  - split; [exact H2|].
    exact (proj2 exit_ends_the_loop (line "exit ") [] H2).
Defined.



(** * More on the tokenizer *)

Section TokenizerMore.

Lemma skipped_char_cases : forall c,
  is_skipped_char c = true ->
  strchr VALID_TOKENS c = false /\ (c =? NUL)%char = false.
Proof.
  intros c H. unfold is_skipped_char in H. apply orb_prop in H.
  destruct H as [H|H]; apply Ascii.eqb_eq in H; subst; split; reflexivity.
Qed.

Lemma tokenize_loop_skips : forall a b c acc,
  is_skipped_char c = true ->
  tokenize_loop (cstring (a ++ c :: b)) acc = tokenize_loop (cstring (a ++ b)) acc.
Proof.
  induction a as [|x a IH]; intros b c acc Hc.
  - destruct (skipped_char_cases c Hc) as [Hv Hn].
    simpl. rewrite Hn. simpl. rewrite Hv.
    unfold is_skipped_char in Hc. now rewrite Hc.
  - simpl. destruct (x =? NUL)%char; [reflexivity|]. simpl.
    destruct (strchr VALID_TOKENS x).
    + destruct (Z.of_nat (length acc) <? MSG_SIZE); [now apply IH|reflexivity].
    + destruct ((x =? " ")%char || (x =? "=")%char); [now apply IH|reflexivity].
Qed.

(** What a successful run of the loop has read and produced. *)
Lemma tokenize_loop_success : forall s acc t,
  Forall (fun c => c <> NUL) s ->
  tokenize_loop s acc = Tokens t ->
  Forall (fun c => is_accepted_char c = true) s
  /\ t = acc ++ filter is_token_char s.
Proof.
  induction s as [|c s IH]; intros acc t Hnul Hrun; simpl in Hrun.
  - destruct (Z.of_nat (length acc) <? MSG_SIZE); [|discriminate].
    injection Hrun as <-. simpl. rewrite app_nil_r. auto.
  - inversion Hnul as [|? ? Hc Hs]; subst.
    rewrite strchr_valid_tokens in Hrun.
    apply Ascii.eqb_neq in Hc. rewrite Hc, orb_false_r in Hrun.
    simpl.
    destruct (is_token_char c) eqn:Etok.
    + destruct (Z.of_nat (length acc) <? MSG_SIZE); [|discriminate].
      destruct (IH _ _ Hs Hrun) as [Hall ->].
      split; [|now rewrite <- app_assoc].
      constructor; [|assumption]. unfold is_accepted_char. now rewrite Etok.
    + destruct ((c =? " ")%char || (c =? "=")%char) eqn:Eskip; [|discriminate].
      destruct (IH _ _ Hs Hrun) as [Hall ->].
      split; [|reflexivity].
      constructor; [|assumption].
      unfold is_accepted_char, is_skipped_char. now rewrite Etok, Eskip.
Qed.

End TokenizerMore.

(** X6: a space or an equal sign changes nothing, wherever it stands:
    [tokenize] gives the same result on a line with one inserted at any
    place, between two digits of a number too, and so does the whole
    turn. *)
Theorem blanks_and_equals_are_skipped_anywhere : forall a b c,
  is_skipped_char c = true ->
  tokenize (a ++ c :: b) = tokenize (a ++ b)
  /\ answer (a ++ c :: b) = answer (a ++ b).
Proof.
  intros a b c Hc.
  assert (H : tokenize (a ++ c :: b) = tokenize (a ++ b)).
  { unfold tokenize. now apply tokenize_loop_skips. }
  split; [exact H|]. unfold answer. now rewrite H.
Qed.

Lemma blanks_and_equals_are_skipped_anywhere_witness :
  is_skipped_char " " = true
  /\ tokenize (line "1" ++ " "%char :: line "2+3") = tokenize (line "1" ++ line "2+3")
  /\ answer (line "1" ++ " "%char :: line "2+3") = Prints 15.
Proof.
  split; [reflexivity|]. split.
  - exact (proj1 (blanks_and_equals_are_skipped_anywhere (line "1") (line "2+3")
                    " "%char eq_refl)).
  - rewrite (proj2 (blanks_and_equals_are_skipped_anywhere (line "1") (line "2+3")
                      " "%char eq_refl)).
    reflexivity.
Defined.

(** X7: [tokenize] returns a token stream exactly when every character of
    the line is a digit, an operator, a parenthesis, a space or an equal
    sign and the token characters are fewer than [MSG_SIZE]; the stream is
    then the token characters of the line, in their order. *)
Theorem tokenize_returns_the_token_characters : forall str t,
  tokenize str = Tokens t
  <-> Forall (fun c => is_accepted_char c = true) (cstring str)
      /\ t = filter is_token_char (cstring str)
      /\ Z.of_nat (length t) < MSG_SIZE.
Proof.
  intros str t. unfold tokenize. split.
  - intro H.
    destruct (tokenize_loop_success _ _ _ (cstring_no_nul str) H) as [Hall Ht].
    destruct (tokenize_loop_tokens _ _ _ (cstring_no_nul str) H) as (_ & _ & _ & Hlen).
    auto.
  - intros (Hall & -> & Hlen).
    now rewrite (tokenize_loop_accepts _ [] Hall).
Qed.

Lemma tokenize_returns_the_token_characters_witness :
  tokenize (line "2 + 6 * 6 =") = Tokens (line "2+6*6")
  /\ Forall (fun c => is_accepted_char c = true) (cstring (line "2 + 6 * 6 ="))
  /\ line "2+6*6" = filter is_token_char (cstring (line "2 + 6 * 6 ="))
  /\ Z.of_nat (length (line "2+6*6")) < MSG_SIZE.
Proof.
  assert (H : tokenize (line "2 + 6 * 6 =") = Tokens (line "2+6*6")) by reflexivity.
  split; [exact H|].
  exact (proj1 (tokenize_returns_the_token_characters _ _) H).
Defined.

(** * More on the evaluator *)

Section Evaluator.

Lemma wrap_int_id : forall z, in_int z -> wrap_int z = z.
Proof.
  intros z [Hlo Hhi]. unfold wrap_int.
  rewrite Z.mod_small; lia.
Qed.

Lemma wrap_int_in_int : forall z, in_int (wrap_int z).
Proof.
  intro z. unfold in_int, wrap_int.
  pose proof (Z.mod_pos_bound (z + 2 ^ 31) (2 ^ 32) ltac:(lia)). lia.
Qed.



Lemma calculate_fault_has_cause : forall t,
  calculate t = UndefinedDivision ->
  exists l r, evaluated_in (OperatorNode "/" l r) t /\ calculate r = Value 0.
Proof.
  induction t as [val|type l IHl r IHr]; intro H; [discriminate H|].
  simpl in H.
  destruct (type =? "n")%char eqn:En; [discriminate H|].
  destruct (calculate l) as [vl|] eqn:El.
  - destruct (calculate r) as [vr|] eqn:Er.
    + destruct (type =? "+")%char; [discriminate H|].
      destruct (type =? "-")%char; [discriminate H|].
      destruct (type =? "*")%char; [discriminate H|].
      destruct (Ascii.eqb_spec type "/"%char) as [->|]; [|discriminate H].
      unfold divide in H.
      destruct (Z.eqb_spec vr 0) as [->|].
      * exists l, r. split; [apply evaluated_here|assumption].
      * destruct (wrap_int (Z.quot vl vr) =? 0); discriminate H.
    + destruct (IHr eq_refl) as (l' & r' & Hin & Hz).
      exists l', r'. split; [now apply evaluated_right|assumption].
  - destruct (IHl eq_refl) as (l' & r' & Hin & Hz).
    exists l', r'. split; [now apply evaluated_left|assumption].
Qed.

Lemma calculate_exact : forall e, fits_int e -> calculate e = Value (exact e).
Proof.
  induction e as [val|type l IHl r IHr]; intro H; [reflexivity|].
  destruct H as (Hop & Hl & Hr & Hfit).
  cbn [calculate]. rewrite (IHl Hl), (IHr Hr).
  cbn [exact] in Hfit |- *.
  destruct (Ascii.eqb_spec type "+"%char) as [->|Hp].
  - cbn. now rewrite wrap_int_id.
  - destruct (Ascii.eqb_spec type "-"%char) as [->|Hm].
    + cbn. now rewrite wrap_int_id.
    + destruct (Ascii.eqb_spec type "*"%char) as [->|Ht].
      * cbn. now rewrite wrap_int_id.
      * apply Ascii.eqb_neq in Hp, Hm, Ht.
        rewrite ?Hp, ?Hm, ?Ht in Hop. discriminate Hop.
Qed.

End Evaluator.



(** X9: on an expression built with [+], [-] and [*] whose value and
    intermediate values all fit an [int], [calculate] returns the value of
    the expression in the integers. *)
Theorem calculate_is_exact_without_overflow : forall e,
  fits_int e -> calculate e = Value (exact e).
Proof. exact calculate_exact. Qed.

Lemma calculate_is_exact_without_overflow_witness :
  fits_int (OperatorNode "-" (NumberNode 7)
              (OperatorNode "*" (NumberNode 46341) (NumberNode 46340)))
  /\ calculate (OperatorNode "-" (NumberNode 7)
                  (OperatorNode "*" (NumberNode 46341) (NumberNode 46340)))
     = Value (7 - 46341 * 46340).
Proof.
  assert (H : fits_int (OperatorNode "-" (NumberNode 7)
                          (OperatorNode "*" (NumberNode 46341) (NumberNode 46340)))).
  { vm_compute. repeat split; discriminate. }
  split; [exact H|]. exact (calculate_is_exact_without_overflow _ H).
Defined.



(** * The trees the parser builds *)

Section Built.

Lemma current_in_stream : forall p,
  well_formed p -> index p < numTokens p -> In (current p) (tokens p).
Proof.
  intros p [Hn [Hlo Hhi]] Hlt. unfold current, char_at.
  apply nth_In.
  pose proof (cstring_length_le (tokens p)). unfold strlen in Hn. lia.
Qed.

Lemma parseNumber_builds : forall fuel p e p' s,
  parseNumber fuel p = Done (e, p') -> built_from s e.
Proof.
  intros fuel p e p' s H. unfold parseNumber in H.
  destruct (parseNumber_loop fuel p []) as [[q number]| |]; simpl in H;
    try discriminate H.
  destruct (Z.of_nat (length number) <? MSG_SIZE); [|discriminate H].
  injection H as <- _. simpl. apply wrap_int_in_int.
Qed.

Lemma parsers_build : forall fuel p e p',
  well_formed p ->
  (parseAddition fuel p = Done (e, p') -> built_from (tokens p) e)
  /\ (forall e0, built_from (tokens p) e0 ->
                 parseAddition_loop fuel e0 p = Done (e, p') ->
                 built_from (tokens p) e)
  /\ (parseMultiplication fuel p = Done (e, p') -> built_from (tokens p) e)
  /\ (forall e0, built_from (tokens p) e0 ->
                 parseMultiplication_loop fuel e0 p = Done (e, p') ->
                 built_from (tokens p) e)
  /\ (parseParenthesis fuel p = Done (e, p') -> built_from (tokens p) e).
Proof.
  induction fuel as [|fuel IH]; intros p e p' Hwf.
  - repeat split; intros; discriminate.
  - destruct (parsers_preserve fuel) as (Pa & Pal & Pm & Pml & Pp).
    split; [|split; [|split; [|split]]].
    + rewrite parseAddition_eq. intro H.
      destruct (parseMultiplication fuel p) as [[e1 p1]| |] eqn:E1;
        simpl in H; try discriminate H.
      destruct (Pm _ _ _ Hwf E1) as [Hwf1 (Ht & _)].
      pose proof (proj1 (proj2 (proj2 (IH p e1 p1 Hwf))) E1) as Hb1.
      rewrite <- Ht in *.
      exact (proj1 (proj2 (IH p1 e p' Hwf1)) e1 Hb1 H).
    + intros e0 Hb0. rewrite parseAddition_loop_eq.
      destruct ((index p <? numTokens p) && is_additive (current p)) eqn:Ec.
      * apply andb_prop in Ec as [Hlt Hop]. apply Z.ltb_lt in Hlt.
        destruct (advance_inside p Hwf Hlt) as [Hwfa _].
        intro H.
        destruct (parseMultiplication fuel (advance p)) as [[e1 p1]| |] eqn:E1;
          simpl in H; try discriminate H.
        destruct (Pm _ _ _ Hwfa E1) as [Hwf1 (Ht & _)].
        pose proof (proj1 (proj2 (proj2 (IH (advance p) e1 p1 Hwfa))) E1) as Hb1.
        change (tokens (advance p)) with (tokens p) in *.
        assert (Hb : built_from (tokens p1) (OperatorNode (current p) e0 e1)).
        { rewrite Ht. simpl. rewrite Hop. simpl.
          repeat split; try assumption. now apply current_in_stream. }
        rewrite <- Ht. exact (proj1 (proj2 (IH p1 e p' Hwf1)) _ Hb H).
      * intros [= <- _]. assumption.
    + rewrite parseMultiplication_eq. intro H.
      destruct (parseParenthesis fuel p) as [[e1 p1]| |] eqn:E1;
        simpl in H; try discriminate H.
      destruct (Pp _ _ _ Hwf E1) as [Hwf1 (Ht & _)].
      pose proof (proj2 (proj2 (proj2 (proj2 (IH p e1 p1 Hwf)))) E1) as Hb1.
      rewrite <- Ht in *.
      exact (proj1 (proj2 (proj2 (proj2 (IH p1 e p' Hwf1)))) e1 Hb1 H).
    + intros e0 Hb0. rewrite parseMultiplication_loop_eq.
      destruct ((index p <? numTokens p) && is_multiplicative (current p)) eqn:Ec.
      * apply andb_prop in Ec as [Hlt Hop]. apply Z.ltb_lt in Hlt.
        destruct (advance_inside p Hwf Hlt) as [Hwfa _].
        intro H.
        destruct (parseParenthesis fuel (advance p)) as [[e1 p1]| |] eqn:E1;
          simpl in H; try discriminate H.
        destruct (Pp _ _ _ Hwfa E1) as [Hwf1 (Ht & _)].
        pose proof (proj2 (proj2 (proj2 (proj2 (IH (advance p) e1 p1 Hwfa)))) E1)
          as Hb1.
        change (tokens (advance p)) with (tokens p) in *.
        assert (Hb : built_from (tokens p1) (OperatorNode (current p) e0 e1)).
        { rewrite Ht. simpl. rewrite Hop, orb_true_r.
          repeat split; try assumption. now apply current_in_stream. }
        rewrite <- Ht.
        exact (proj1 (proj2 (proj2 (proj2 (IH p1 e p' Hwf1)))) _ Hb H).
      * intros [= <- _]. assumption.
    + rewrite parseParenthesis_eq.
      destruct (current p =? "(")%char eqn:Ec.
      * destruct (advance_inside p Hwf (open_inside p Hwf Ec)) as [Hwfa _].
        intro H.
        destruct (parseAddition fuel (advance p)) as [[e1 p1]| |] eqn:E1;
          simpl in H; try discriminate H.
        unfold close in H. simpl in H. injection H as <- _.
        exact (proj1 (IH (advance p) e1 p1 Hwfa) E1).
      * apply parseNumber_builds.
Qed.

Lemma parse_builds : forall s e, parse s = Done e -> built_from s e.
Proof.
  intros s e H. unfold parse, parse_with in H.
  destruct (parseAddition (fuel_for (strlen s)) (start s)) as [[e1 p1]| |] eqn:E;
    simpl in H; try discriminate H.
  injection H as <-.
  exact (proj1 (parsers_build _ _ _ _ (start_well_formed s)) E).
Qed.

(** A tree built from a stream without [/] has a value. *)
Lemma built_without_division : forall s e,
  built_from s e -> ~ In "/"%char s -> exists val, calculate e = Value val.
Proof.
  intros s e He Hs.
  destruct (calculate e) as [val|] eqn:E; [eauto|].
  destruct (calculate_fault_has_cause e E) as (l & r & Hin & _).
  exfalso. clear E. induction Hin as [|type l' r' _ _ IH|type l' r' _ _ IH].
  - destruct He as (_ & Hin & _). contradiction.
  - destruct He as (_ & _ & Hl & _). auto.
  - destruct He as (_ & _ & _ & Hr). auto.
Qed.

End Built.

(** X11: the trees the parser returns.  Whatever the token stream, every
    operator node of the tree [parse] returns has one of the types
    [+ - * /], a character of the stream, and every number node holds an
    [int]: [calculate] never meets a node type it does not know. *)
Theorem parse_builds_known_nodes : forall s e,
  parse s = Done e -> built_from s e.
Proof. exact parse_builds. Qed.

Lemma parse_builds_known_nodes_witness :
  parse (line "+)*") = Done (OperatorNode "+" (NumberNode 0) (NumberNode 0))
  /\ built_from (line "+)*") (OperatorNode "+" (NumberNode 0) (NumberNode 0)).
Proof.
  assert (H : parse (line "+)*")
              = Done (OperatorNode "+" (NumberNode 0) (NumberNode 0)))
    by reflexivity.
  split; [exact H|]. exact (parse_builds_known_nodes _ _ H).
Defined.

(** X12: only a division can make a turn fail.  A line that fits the
    buffer and holds no [/] is answered: its value is printed, or
    ["invalid input"] is. *)
Theorem line_without_division_is_answered : forall str,
  strlen str < MSG_SIZE ->
  ~ In "/"%char (cstring str) ->
  (exists val, answer str = Prints val) \/ answer str = InvalidInput.
Proof.
  intros str Hfit Hdiv. unfold answer.
  pose proof (tokenize_in_bounds str Hfit) as Hb.
  destruct (tokenize str) as [t| |] eqn:Et; [|auto|contradiction].
  destruct (tokenize_stream str t Et) as [Htok Hlen].
  destruct (parse_done t) as [e He].
  { unfold strlen. now rewrite (token_chars_cstring t Htok). }
  rewrite He.
  assert (Hnodiv : ~ In "/"%char t).
  { unfold tokenize in Et.
    destruct (tokenize_loop_success _ _ _ (cstring_no_nul str) Et) as [_ ->].
    simpl. intro Hin. apply filter_In in Hin. tauto. }
  destruct (built_without_division t e (parse_builds t e He) Hnodiv) as [val ->].
  eauto.
Qed.

Lemma line_without_division_is_answered_witness :
  strlen (line "2*(3-5)+") < MSG_SIZE
  /\ ~ In "/"%char (cstring (line "2*(3-5)+"))
  /\ ((exists val, answer (line "2*(3-5)+") = Prints val)
      \/ answer (line "2*(3-5)+") = InvalidInput).
Proof.
  assert (H1 : strlen (line "2*(3-5)+") < MSG_SIZE) by reflexivity.
  assert (H2 : ~ In "/"%char (cstring (line "2*(3-5)+"))).
  { simpl. intros [H|[H|[H|[H|[H|[H|[H|[H|[]]]]]]]]]; discriminate H. }
  split; [exact H1|]. split; [exact H2|].
  exact (line_without_division_is_answered _ H1 H2).
Defined.

(** * Decimal digits *)

Section Decimal.

Lemma digit_char_spec : forall d,
  0 <= d < 10 ->
  isdigit (ascii_of_nat (Z.to_nat (48 + d))) = true
  /\ digit_value (ascii_of_nat (Z.to_nat (48 + d))) = d.
Proof.
  intros d Hd.
  assert (H : d = 0 \/ d = 1 \/ d = 2 \/ d = 3 \/ d = 4 \/ d = 5 \/ d = 6
              \/ d = 7 \/ d = 8 \/ d = 9) by lia.
  repeat (destruct H as [->|H]; [split; reflexivity|]).
  subst. split; reflexivity.
Qed.

Lemma isdigit_facts : forall c,
  isdigit c = true ->
  c <> NUL /\ is_token_char c = true /\ strchr DIGITS c = true
  /\ (c =? "(")%char = false.
Proof.
  intros [[] [] [] [] [] [] [] []] H; try discriminate H;
    (split; [discriminate|repeat split]).
Qed.

(** The digits written for [n] are read back as [n]. *)
Lemma decimal_digits_spec : forall fuel n acc,
  0 <= n < 10 ^ Z.of_nat (S fuel) ->
  exists d,
    decimal_digits (S fuel) n acc = d ++ acc
    /\ Forall (fun c => isdigit c = true) d
    /\ d <> []
    /\ (length d <= S fuel)%nat
    /\ forall a rest,
         atoi_digits (d ++ rest) a
         = atoi_digits rest (a * 10 ^ Z.of_nat (length d) + n).
Proof.
  induction fuel as [|fuel IH]; intros n acc Hn.
  - assert (Hsmall : n / 10 = 0) by (apply Z.div_small; simpl in Hn; lia).
    assert (Hmod : n mod 10 = n) by (apply Z.mod_small; simpl in Hn; lia).
    destruct (digit_char_spec n) as [Hd Hv]; [simpl in Hn; lia|].
    cbn [decimal_digits]. rewrite Hsmall, Hmod. simpl (0 =? 0).
    exists [ascii_of_nat (Z.to_nat (48 + n))].
    split; [reflexivity|]. split; [repeat constructor; assumption|].
    split; [discriminate|]. split; [simpl; lia|].
    intros a rest. cbn [app atoi_digits]. rewrite Hd, Hv.
    f_equal. cbn [length]. change (10 ^ Z.of_nat 1) with 10. lia.
  - pose proof (Z.mod_pos_bound n 10 ltac:(lia)) as Hmod.
    destruct (digit_char_spec (n mod 10) Hmod) as [Hd Hv].
    change (decimal_digits (S (S fuel)) n acc)
      with (if n / 10 =? 0
            then ascii_of_nat (Z.to_nat (48 + n mod 10)) :: acc
            else decimal_digits (S fuel) (n / 10)
                   (ascii_of_nat (Z.to_nat (48 + n mod 10)) :: acc)).
    destruct (Z.eqb_spec (n / 10) 0) as [Hz|Hnz].
    + exists [ascii_of_nat (Z.to_nat (48 + n mod 10))].
      split; [reflexivity|]. split; [repeat constructor; assumption|].
      split; [discriminate|]. split; [simpl; lia|].
      intros a rest. cbn [app atoi_digits]. rewrite Hd, Hv.
      f_equal. pose proof (Z.div_mod n 10 ltac:(lia)).
      cbn [length]. change (10 ^ Z.of_nat 1) with 10. lia.
    + assert (Hq : 0 <= n / 10 < 10 ^ Z.of_nat (S fuel)).
      { split; [apply Z.div_pos; lia|].
        apply Z.div_lt_upper_bound; [lia|].
        replace (Z.of_nat (S (S fuel))) with (Z.of_nat (S fuel) + 1) in Hn by lia.
        rewrite Z.pow_add_r in Hn by lia. lia. }
      destruct (IH (n / 10) (ascii_of_nat (Z.to_nat (48 + n mod 10)) :: acc) Hq)
        as (d & Hrun & Hdig & Hne & Hlen & Hval).
      exists (d ++ [ascii_of_nat (Z.to_nat (48 + n mod 10))]).
      split; [now rewrite Hrun, <- app_assoc|].
      split; [apply Forall_app; split; [assumption|repeat constructor; assumption]|].
      split; [now destruct d|].
      split; [rewrite length_app; simpl; lia|].
      intros a rest. rewrite <- app_assoc, Hval. cbn [app atoi_digits].
      rewrite Hd, Hv. f_equal.
      rewrite length_app. cbn [length].
      replace (Z.of_nat (length d + 1)) with (Z.of_nat (length d) + 1) by lia.
      rewrite Z.pow_add_r by lia.
      pose proof (Z.div_mod n 10 ltac:(lia)). lia.
Qed.

(** The text [sprintf] writes for a number from 0 to [INT_MAX]: one to
    ten digits, which [atoi] reads back as the number. *)
Lemma format_int_digits : forall n,
  0 <= n < 2 ^ 31 ->
  Forall (fun c => isdigit c = true) (decimal_digits 10 n [])
  /\ decimal_digits 10 n [] <> []
  /\ Z.of_nat (length (decimal_digits 10 n [])) <= 10
  /\ atoi (decimal_digits 10 n []) = n.
Proof.
  intros n Hn.
  destruct (decimal_digits_spec 9 n []) as (d & Hrun & Hdig & Hne & Hlen & Hval).
  { split; [lia|]. apply Z.lt_trans with (2 ^ 31); [lia|reflexivity]. }
  rewrite Hrun, app_nil_r.
  split; [assumption|]. split; [assumption|]. split; [lia|].
  unfold atoi. rewrite cstring_fixed.
  - rewrite <- (app_nil_r d), Hval. cbn [atoi_digits].
    apply wrap_int_id. unfold in_int. lia.
  - eapply Forall_impl; [|exact Hdig]. intros c Hc. now apply isdigit_facts.
Qed.

End Decimal.

(** * Cursors inside a stream *)

Section Cur.

Lemma cur_current : forall pre c post, current (cur pre (c :: post)) = c.
Proof.
  intros pre c post. unfold current, cur, char_at. cbn [tokens index].
  rewrite Nat2Z.id. apply nth_middle.
Qed.

Lemma cur_current_end : forall pre, current (cur pre []) = NUL.
Proof.
  intro pre. unfold current, cur, char_at. cbn [tokens index].
  rewrite Nat2Z.id, app_nil_r. apply nth_overflow. lia.
Qed.

Lemma cur_inside : forall pre c post,
  (index (cur pre (c :: post)) <? numTokens (cur pre (c :: post))) = true.
Proof.
  intros pre c post. unfold cur. cbn [index numTokens].
  apply Z.ltb_lt. rewrite length_app. cbn [length]. lia.
Qed.

Lemma cur_at_end : forall pre,
  (index (cur pre []) <? numTokens (cur pre [])) = false.
Proof.
  intro pre. unfold cur. cbn [index numTokens].
  apply Z.ltb_ge. rewrite app_nil_r. lia.
Qed.

Lemma cur_advance : forall pre c post,
  advance (cur pre (c :: post)) = cur (pre ++ [c]) post.
Proof.
  intros pre c post. unfold advance, cur. cbn [tokens numTokens index].
  rewrite <- app_assoc. cbn [app]. f_equal.
  rewrite length_app. cbn [length]. lia.
Qed.

Lemma start_cur : forall s, Forall (fun c => c <> NUL) s -> start s = cur [] s.
Proof.
  intros s Hs. unfold start, cur, strlen. now rewrite (cstring_fixed s Hs).
Qed.

(** The loops stop in front of a character that is not theirs. *)
Lemma parseMultiplication_loop_stops : forall fuel e pre post,
  ends_product post ->
  parseMultiplication_loop fuel e (cur pre post) = OutOfFuel
  \/ parseMultiplication_loop fuel e (cur pre post) = Done (e, cur pre post).
Proof.
  intros [|fuel] e pre post Hpost; [now left|right].
  rewrite parseMultiplication_loop_eq.
  destruct post as [|c post].
  - now rewrite cur_at_end.
  - destruct Hpost as (_ & _ & Hc). now rewrite cur_current, Hc, andb_false_r.
Qed.

Lemma parseAddition_loop_stops : forall fuel e pre post,
  ends_expression post ->
  parseAddition_loop fuel e (cur pre post) = OutOfFuel
  \/ parseAddition_loop fuel e (cur pre post) = Done (e, cur pre post).
Proof.
  intros [|fuel] e pre post Hpost; [now left|right].
  rewrite parseAddition_loop_eq.
  destruct post as [|c post].
  - now rewrite cur_at_end.
  - rewrite cur_current.
    destruct Hpost as [-> | ->]; now rewrite andb_false_r.
Qed.

Lemma ends_expression_product : forall post,
  ends_expression post -> ends_product post.
Proof.
  intros [|c post]; simpl; [trivial|].
  intros [-> | ->]; repeat split; discriminate.
Qed.

Lemma ends_product_number : forall post, ends_product post -> ends_number post.
Proof. intros [|c post]; simpl; tauto. Qed.

(** A run of digits in front of something else is read whole. *)
Lemma parseNumber_loop_digits : forall d fuel pre post number,
  Forall (fun c => isdigit c = true) d ->
  Z.of_nat (length number) + Z.of_nat (length d) < MSG_SIZE ->
  ends_number post ->
  parseNumber_loop fuel (cur pre (d ++ post)) number = OutOfFuel
  \/ parseNumber_loop fuel (cur pre (d ++ post)) number
     = Done (cur (pre ++ d) post, number ++ d).
Proof.
  induction d as [|x d IH]; intros [|fuel] pre post number Hd Hlen Hpost;
    try (now left).
  - right. rewrite parseNumber_loop_eq. cbn [app]. rewrite !app_nil_r.
    destruct post as [|c post].
    + now rewrite cur_at_end, andb_false_r.
    + destruct Hpost as [Hc Hn]. apply Ascii.eqb_neq in Hn.
      now rewrite cur_current, strchr_digits, Hc, Hn.
  - inversion Hd as [|? ? Hx Hd']; subst.
    rewrite parseNumber_loop_eq. cbn [app].
    rewrite cur_current, cur_inside.
    destruct (isdigit_facts x Hx) as (_ & _ & -> & _).
    cbn [length] in Hlen.
    destruct (Z.ltb_spec (Z.of_nat (length number)) MSG_SIZE) as [_|]; [|lia].
    cbn [andb]. rewrite cur_advance.
    destruct (IH fuel (pre ++ [x]) post (number ++ [x]) Hd') as [H|H];
      [rewrite length_app; cbn [length]; lia|assumption|now left|].
    right. rewrite H, <- !app_assoc. reflexivity.
Qed.

Lemma parseNumber_digits : forall d fuel pre post,
  Forall (fun c => isdigit c = true) d ->
  Z.of_nat (length d) < MSG_SIZE ->
  ends_number post ->
  parseNumber fuel (cur pre (d ++ post)) = OutOfFuel
  \/ parseNumber fuel (cur pre (d ++ post))
     = Done (NumberNode (atoi d), cur (pre ++ d) post).
Proof.
  intros d fuel pre post Hd Hlen Hpost. unfold parseNumber.
  destruct (parseNumber_loop_digits d fuel pre post [] Hd) as [H|H];
    [simpl; lia|assumption|rewrite H; now left|].
  right. rewrite H. cbn [bind app].
  destruct (Z.ltb_spec (Z.of_nat (length d)) MSG_SIZE); [reflexivity|lia].
Qed.

End Cur.

(** * Reading back the text of a tree *)

Section ReadBack.

Lemma additive_facts : forall c,
  is_additive c = true ->
  isdigit c = false /\ c <> NUL /\ is_multiplicative c = false
  /\ is_token_char c = true.
Proof.
  intros c H. unfold is_additive in H. apply orb_prop in H.
  destruct H as [H|H]; apply Ascii.eqb_eq in H; subst;
    (split; [reflexivity|split; [discriminate|split; reflexivity]]).
Qed.

Lemma multiplicative_facts : forall c,
  is_multiplicative c = true ->
  isdigit c = false /\ c <> NUL /\ is_token_char c = true.
Proof.
  intros c H. unfold is_multiplicative in H. apply orb_prop in H.
  destruct H as [H|H]; apply Ascii.eqb_eq in H; subst;
    (split; [reflexivity|split; [discriminate|reflexivity]]).
Qed.

Lemma product_of_factor : forall x t, read_as_factor x t -> read_as_product x t.
Proof.
  intros x t Hx [|fuel] pre post Hpost; [now exists 0%nat|].
  rewrite parseMultiplication_eq.
  destruct (Hx fuel pre post Hpost) as [H|H]; rewrite H.
  - now exists 0%nat.
  - now exists fuel.
Qed.

Lemma sum_of_product : forall x t, read_as_product x t -> read_as_sum x t.
Proof.
  intros x t Hx [|fuel] pre post Hpost; [now exists 0%nat|].
  rewrite parseAddition_eq.
  destruct (Hx fuel pre post (ends_product_number post Hpost)) as [f1 H].
  rewrite H.
  destruct (parseMultiplication_loop_stops f1 t (pre ++ x) post Hpost) as [H1|H1];
    rewrite H1.
  - now exists 0%nat.
  - now exists fuel.
Qed.

Lemma factor_in_parentheses : forall x t,
  read_as_sum x t -> read_as_factor ("("%char :: x ++ [")"%char]) t.
Proof.
  intros x t Hx [|fuel] pre post Hpost; [now left|].
  rewrite parseParenthesis_eq.
  cbn [app]. rewrite cur_current. cbn [Ascii.eqb Bool.eqb].
  rewrite cur_advance, <- app_assoc. cbn [app].
  destruct (Hx fuel (pre ++ ["("%char]) (")"%char :: post)) as [f1 H].
  { simpl. repeat split; discriminate. }
  rewrite H.
  destruct (parseAddition_loop_stops f1 t ((pre ++ ["("%char]) ++ x)
              (")"%char :: post)) as [H1|H1]; [simpl; auto|rewrite H1; now left|].
  right. rewrite H1. unfold bind, close. cbn [fst snd].
  rewrite cur_current. cbn [Ascii.eqb Bool.eqb]. rewrite cur_advance.
  do 2 f_equal. rewrite <- !app_assoc. reflexivity.
Qed.

Lemma sum_of_operands : forall xl l xr r op,
  read_as_sum xl l -> read_as_product xr r -> is_additive op = true ->
  read_as_sum (xl ++ op :: xr) (OperatorNode op l r).
Proof.
  intros xl l xr r op Hl Hr Hop fuel pre post Hpost.
  destruct (additive_facts op Hop) as (Hd & Hn & Hm & _).
  rewrite <- app_assoc. cbn [app].
  destruct (Hl fuel pre (op :: xr ++ post)) as [f1 H]; [simpl; auto|].
  rewrite H. destruct f1 as [|f2]; [now exists 0%nat|].
  rewrite parseAddition_loop_eq.
  rewrite cur_inside, cur_current, Hop. cbn [andb]. rewrite cur_advance.
  destruct (Hr f2 ((pre ++ xl) ++ [op]) post (ends_product_number post Hpost))
    as [f3 H3].
  rewrite H3.
  destruct (parseMultiplication_loop_stops f3 r (((pre ++ xl) ++ [op]) ++ xr)
              post Hpost) as [H4|H4]; rewrite H4.
  - now exists 0%nat.
  - exists f2. cbn [bind fst snd]. rewrite <- !app_assoc. reflexivity.
Qed.

Lemma product_of_operands : forall xl l xr r op,
  read_as_product xl l -> read_as_factor xr r -> is_multiplicative op = true ->
  read_as_product (xl ++ op :: xr) (OperatorNode op l r).
Proof.
  intros xl l xr r op Hl Hr Hop fuel pre post Hpost.
  destruct (multiplicative_facts op Hop) as (Hd & Hn & _).
  rewrite <- app_assoc. cbn [app].
  destruct (Hl fuel pre (op :: xr ++ post)) as [f1 H]; [simpl; auto|].
  rewrite H. destruct f1 as [|f2]; [now exists 0%nat|].
  rewrite parseMultiplication_loop_eq.
  rewrite cur_inside, cur_current, Hop. cbn [andb]. rewrite cur_advance.
  destruct (Hr f2 ((pre ++ xl) ++ [op]) post Hpost) as [H3|H3]; rewrite H3.
  - now exists 0%nat.
  - exists f2. cbn [bind fst snd]. rewrite <- !app_assoc. reflexivity.
Qed.

Lemma factor_of_number : forall val,
  0 <= val < 2 ^ 31 -> read_as_factor (format_int val) (NumberNode val).
Proof.
  intros val Hval [|fuel] pre post Hpost; [now left|].
  unfold format_int. destruct (Z.ltb_spec val 0) as [|_]; [lia|].
  destruct (format_int_digits val Hval) as (Hd & Hne & Hlen & Hatoi).
  rewrite parseParenthesis_eq.
  destruct (decimal_digits 10 val []) as [|x d] eqn:E; [contradiction|].
  pose proof (Forall_inv Hd) as Hx. cbn beta in Hx.
  destruct (isdigit_facts x Hx) as (_ & _ & _ & Hopen).
  cbn [app]. rewrite cur_current, Hopen.
  change (x :: d ++ post) with ((x :: d) ++ post).
  destruct (parseNumber_digits (x :: d) fuel pre post Hd) as [H|H];
    [unfold MSG_SIZE; lia|assumption|now left|].
  right. now rewrite H, Hatoi.
Qed.

(** The text of a tree is read as the tree, at each of the three levels. *)
Lemma show_read_back : forall t,
  written_tree t ->
  read_as_sum (show 0 t) t
  /\ read_as_product (show 1 t) t
  /\ read_as_factor (show 2 t) t.
Proof.
  induction t as [val|type l IHl r IHr]; intro Ht.
  - pose proof (factor_of_number val Ht) as Hf.
    pose proof (product_of_factor _ _ Hf) as Hp.
    split; [apply sum_of_product; exact Hp|]. split; assumption.
  - destruct Ht as (Hop & Hl & Hr).
    destruct (IHl Hl) as (Al & Ml & _). destruct (IHr Hr) as (_ & Mr & Fr).
    cbn [show]. destruct (is_additive type) eqn:Ea.
    + pose proof (sum_of_operands _ _ _ _ type Al Mr Ea) as Hs.
      pose proof (factor_in_parentheses _ _ Hs) as Hf.
      split; [exact Hs|]. split; [apply product_of_factor; exact Hf|exact Hf].
    + simpl in Hop.
      pose proof (product_of_operands _ _ _ _ type Ml Fr Hop) as Hp.
      pose proof (sum_of_product _ _ Hp) as Hs.
      split; [exact Hs|]. split; [exact Hp|].
      apply factor_in_parentheses. exact Hs.
Qed.

Lemma show_token_chars : forall t level,
  written_tree t -> Forall (fun c => is_token_char c = true) (show level t).
Proof.
  induction t as [val|type l IHl r IHr]; intros level Ht.
  - cbn [show]. unfold format_int.
    destruct (Z.ltb_spec val 0) as [|_]; [simpl in Ht; lia|].
    destruct (format_int_digits val Ht) as (Hd & _).
    eapply Forall_impl; [|exact Hd]. intros c Hc. now apply isdigit_facts.
  - destruct Ht as (Hop & Hl & Hr).
    assert (Htype : is_token_char type = true).
    { destruct (is_additive type) eqn:Ea; [now apply additive_facts|].
      simpl in Hop. now apply multiplicative_facts. }
    cbn [show].
    destruct (is_additive type);
      [destruct level as [|k]|destruct level as [|[|k]]];
      repeat first [apply Forall_cons | apply Forall_app; split
                   | apply Forall_nil | apply IHl | apply IHr
                   | assumption | reflexivity].
Qed.

(** A stream whose start is read as [t] by [parseAddition], the loop then
    stopping, parses to [t]. *)
Lemma parse_read_back : forall x t post,
  read_as_sum x t -> ends_expression post ->
  Forall (fun c => c <> NUL) (x ++ post) ->
  parse (x ++ post) = Done t.
Proof.
  intros x t post Hx Hpost Hnul.
  pose proof (parse_finishes (x ++ post)) as Hfin.
  unfold parse, parse_with in *. rewrite (start_cur _ Hnul) in *.
  destruct (Hx (fuel_for (strlen (x ++ post))) [] post
              (ends_expression_product post Hpost)) as [f1 H].
  cbn [app] in H. rewrite H in *.
  destruct (parseAddition_loop_stops f1 t x post Hpost) as [H1|H1];
    rewrite H1 in *; [now elim Hfin|reflexivity].
Qed.

End ReadBack.

Section ReadBackMore.

Lemma parseNumber_loop_enough : forall d fuel pre post number,
  ends_number post ->
  (length d < fuel)%nat ->
  parseNumber_loop fuel (cur pre (d ++ post)) number <> OutOfFuel.
Proof.
  induction d as [|x d IH]; intros [|fuel] pre post number Hpost Hfuel;
    try (simpl in Hfuel; lia).
  - rewrite parseNumber_loop_eq. cbn [app].
    destruct post as [|c post].
    + rewrite cur_at_end, andb_false_r. discriminate.
    + destruct Hpost as [Hc Hn]. apply Ascii.eqb_neq in Hn.
      rewrite cur_current, strchr_digits, Hc, Hn. discriminate.
  - rewrite parseNumber_loop_eq. cbn [app].
    destruct (strchr DIGITS (current (cur pre (x :: d ++ post)))
              && (Z.of_nat (length number) <? MSG_SIZE)
              && (index (cur pre (x :: d ++ post))
                  <? numTokens (cur pre (x :: d ++ post))));
      [|discriminate].
    rewrite cur_advance. apply IH; [assumption|]. simpl in Hfuel. lia.
Qed.

Lemma tokenize_text : forall x,
  Forall (fun c => is_token_char c = true) x ->
  Z.of_nat (length x) < MSG_SIZE ->
  answer x = match parse x with
             | Done e => match calculate e with
                         | Value val => Prints val
                         | UndefinedDivision => DivisionFault
                         end
             | o => ParseFault o
             end.
Proof.
  intros x Hx Hlen. unfold answer. now rewrite (tokenize_token_chars x Hx Hlen).
Qed.

Lemma token_chars_no_nul : forall x,
  Forall (fun c => is_token_char c = true) x -> Forall (fun c => c <> NUL) x.
Proof.
  intros x Hx. eapply Forall_impl; [|exact Hx]. apply token_char_not_nul.
Qed.

(** A sum or a difference whose left operand is missing: [parseNumber]
    reads the empty run as 0 in its place. *)
Lemma sum_of_missing_operand : forall xr r op,
  read_as_product xr r -> is_additive op = true ->
  read_as_sum (op :: xr) (OperatorNode op (NumberNode 0) r).
Proof.
  intros xr r op Hr Hop [|fuel] pre post Hpost; [now exists 0%nat|].
  destruct (additive_facts op Hop) as (Hd & Hn & Hm & _).
  assert (Hends : ends_product (op :: xr ++ post)) by (simpl; auto).
  assert (Hopen : (op =? "(")%char = false).
  { unfold is_additive in Hop. apply orb_prop in Hop.
    destruct Hop as [H|H]; apply Ascii.eqb_eq in H; subst; reflexivity. }
  assert (Hfactor : forall f,
             parseParenthesis f (cur pre (op :: xr ++ post)) = OutOfFuel
             \/ parseParenthesis f (cur pre (op :: xr ++ post))
                = Done (NumberNode 0, cur pre (op :: xr ++ post))).
  { intros [|f]; [now left|]. rewrite parseParenthesis_eq, cur_current, Hopen.
    destruct (parseNumber_digits [] f pre (op :: xr ++ post)) as [H|H];
      [constructor|reflexivity|exact (ends_product_number _ Hends)|now left|].
    right. cbn [app] in H. rewrite app_nil_r in H. exact H. }
  assert (Hproduct : forall f,
             parseMultiplication f (cur pre (op :: xr ++ post)) = OutOfFuel
             \/ parseMultiplication f (cur pre (op :: xr ++ post))
                = Done (NumberNode 0, cur pre (op :: xr ++ post))).
  { intros [|f]; [now left|]. rewrite parseMultiplication_eq.
    destruct (Hfactor f) as [H|H]; rewrite H; [now left|]. cbn [bind fst snd].
    apply parseMultiplication_loop_stops. exact Hends. }
  rewrite parseAddition_eq. cbn [app].
  destruct (Hproduct fuel) as [H|H]; rewrite H; [now exists 0%nat|].
  cbn [bind fst snd]. destruct fuel as [|f2]; [now exists 0%nat|].
  rewrite parseAddition_loop_eq.
  rewrite cur_inside, cur_current, Hop. cbn [andb]. rewrite cur_advance.
  destruct (Hr f2 (pre ++ [op]) post (ends_product_number post Hpost)) as [f3 H3].
  rewrite H3.
  destruct (parseMultiplication_loop_stops f3 r ((pre ++ [op]) ++ xr) post Hpost)
    as [H4|H4]; rewrite H4.
  - now exists 0%nat.
  - exists f2. cbn [bind fst snd]. rewrite <- !app_assoc. reflexivity.
Qed.

End ReadBackMore.

(** X13: the parser reads back what is written.  For every tree with
    operators [+ - * /] and numbers from 0 to [INT_MAX], written with the
    parentheses that precedence and left association require and no
    others, [parse] returns that tree; and when the text fits the buffer,
    the turn on it prints what [calculate] gives on the tree. *)
Theorem parse_reads_back_the_tree : forall t,
  written_tree t ->
  parse (show 0 t) = Done t
  /\ (Z.of_nat (length (show 0 t)) < MSG_SIZE ->
      answer (show 0 t) = match calculate t with
                          | Value val => Prints val
                          | UndefinedDivision => DivisionFault
                          end).
Proof.
  intros t Ht.
  pose proof (show_token_chars t 0 Ht) as Htok.
  assert (Hparse : parse (show 0 t) = Done t).
  { rewrite <- (app_nil_r (show 0 t)).
    apply parse_read_back; [apply (show_read_back t Ht)|exact I|].
    rewrite app_nil_r. now apply token_chars_no_nul. }
  split; [exact Hparse|].
  intro Hlen. now rewrite (tokenize_text _ Htok Hlen), Hparse.
Qed.

Lemma parse_reads_back_the_tree_witness :
  written_tree (OperatorNode "-" (NumberNode 1)
                  (OperatorNode "-" (OperatorNode "*" (NumberNode 2) (NumberNode 3))
                     (OperatorNode "/"
                        (OperatorNode "+" (NumberNode 4) (NumberNode 5))
                        (NumberNode 6))))
  /\ show 0 (OperatorNode "-" (NumberNode 1)
               (OperatorNode "-" (OperatorNode "*" (NumberNode 2) (NumberNode 3))
                  (OperatorNode "/"
                     (OperatorNode "+" (NumberNode 4) (NumberNode 5))
                     (NumberNode 6))))
     = line "1-(2*3-(4+5)/6)"
  /\ parse (line "1-(2*3-(4+5)/6)")
     = Done (OperatorNode "-" (NumberNode 1)
               (OperatorNode "-" (OperatorNode "*" (NumberNode 2) (NumberNode 3))
                  (OperatorNode "/"
                     (OperatorNode "+" (NumberNode 4) (NumberNode 5))
                     (NumberNode 6)))).
Proof.
  assert (H : written_tree
                (OperatorNode "-" (NumberNode 1)
                   (OperatorNode "-" (OperatorNode "*" (NumberNode 2) (NumberNode 3))
                      (OperatorNode "/"
                         (OperatorNode "+" (NumberNode 4) (NumberNode 5))
                         (NumberNode 6))))).
  { simpl. repeat split; try reflexivity; lia. }
  split; [exact H|]. split; [reflexivity|].
  exact (proj1 (parse_reads_back_the_tree _ H)).
Defined.

(** X14: what follows a complete expression is ignored.  When the text of
    a tree is followed by a parenthesis, [parse] returns the tree and
    never looks at the rest of the stream: [2)3] and [2(3] parse as 2. *)
Theorem parse_ignores_what_follows : forall t c rest,
  written_tree t ->
  c = "("%char \/ c = ")"%char ->
  Forall (fun c => c <> NUL) rest ->
  parse (show 0 t ++ c :: rest) = Done t.
Proof.
  intros t c rest Ht Hc Hrest.
  apply parse_read_back; [apply (show_read_back t Ht)|exact Hc|].
  apply Forall_app. split.
  - apply token_chars_no_nul. now apply show_token_chars.
  - constructor; [|assumption]. destruct Hc as [-> | ->]; discriminate.
Qed.

Lemma parse_ignores_what_follows_witness :
  written_tree (OperatorNode "+" (NumberNode 2) (NumberNode 2))
  /\ (")"%char = "("%char \/ ")"%char = ")"%char)
  /\ Forall (fun c => c <> NUL) (line "*3/0")
  /\ parse (line "2+2)*3/0") = Done (OperatorNode "+" (NumberNode 2) (NumberNode 2)).
Proof.
  assert (H1 : written_tree (OperatorNode "+" (NumberNode 2) (NumberNode 2))).
  { simpl. repeat split; try reflexivity; lia. }
  assert (H2 : ")"%char = "("%char \/ ")"%char = ")"%char) by now right.
  assert (H3 : Forall (fun c => c <> NUL) (line "*3/0")).
  { simpl. repeat constructor; discriminate. }
  split; [exact H1|]. split; [exact H2|]. split; [exact H3|].
  exact (parse_ignores_what_follows _ ")"%char _ H1 H2 H3).
Defined.

(** X15: [parseNumber] takes the whole run of digits at the cursor and
    nothing more.  On a run of fewer than [MSG_SIZE] digits followed by
    the end of the stream or by a character that is not a digit, it
    returns the number node of [atoi] of the run and the cursor behind the
    run. *)
Theorem parseNumber_reads_the_digit_run : forall d fuel pre post,
  Forall (fun c => isdigit c = true) d ->
  Z.of_nat (length d) < MSG_SIZE ->
  ends_number post ->
  (length d < fuel)%nat ->
  parseNumber fuel (cur pre (d ++ post))
  = Done (NumberNode (atoi d), cur (pre ++ d) post).
Proof.
  intros d fuel pre post Hd Hlen Hpost Hfuel.
  destruct (parseNumber_digits d fuel pre post Hd Hlen Hpost) as [H|H];
    [|exact H].
  exfalso. unfold parseNumber in H.
  pose proof (parseNumber_loop_enough d fuel pre post [] Hpost Hfuel) as Hloop.
  destruct (parseNumber_loop fuel (cur pre (d ++ post)) []) as [[q number]| |];
    [|contradiction|discriminate H].
  simpl in H. destruct (Z.of_nat (length number) <? MSG_SIZE); discriminate H.
Qed.

Lemma parseNumber_reads_the_digit_run_witness :
  Forall (fun c => isdigit c = true) (line "007")
  /\ Z.of_nat (length (line "007")) < MSG_SIZE
  /\ ends_number (line "+1")
  /\ (length (line "007") < 4)%nat
  /\ parseNumber 4 (cur (line "2*") (line "007" ++ line "+1"))
     = Done (NumberNode 7, cur (line "2*" ++ line "007") (line "+1")).
Proof.
  assert (H1 : Forall (fun c => isdigit c = true) (line "007")).
  { simpl. repeat constructor. }
  assert (H2 : Z.of_nat (length (line "007")) < MSG_SIZE) by reflexivity.
  assert (H3 : ends_number (line "+1")).
  { simpl. split; [reflexivity|discriminate]. }
  assert (H4 : (length (line "007") < 4)%nat) by (simpl; lia).
  split; [exact H1|]. split; [exact H2|]. split; [exact H3|]. split; [exact H4|].
  exact (parseNumber_reads_the_digit_run _ 4%nat (line "2*") _ H1 H2 H3 H4).
Defined.

(** X16: a sign in front.  There is no unary operator in the grammar, but
    a [+] or [-] where an expression starts is taken as an operator whose
    missing left operand is 0: the text of a term [r] with a sign in front
    parses as [0 + r] or [0 - r]. *)
Theorem leading_sign_is_an_operation_on_zero : forall r op,
  written_tree r -> is_additive op = true ->
  parse (op :: show 1 r) = Done (OperatorNode op (NumberNode 0) r).
Proof.
  intros r op Hr Hop.
  rewrite <- (app_nil_r (op :: show 1 r)).
  apply parse_read_back; [|exact I|].
  - apply sum_of_missing_operand; [apply (show_read_back r Hr)|assumption].
  - rewrite app_nil_r. apply token_chars_no_nul.
    constructor; [now apply additive_facts|now apply show_token_chars].
Qed.

Lemma leading_sign_is_an_operation_on_zero_witness :
  written_tree (OperatorNode "*" (NumberNode 5) (NumberNode 3))
  /\ is_additive "-" = true
  /\ parse (line "-5*3")
     = Done (OperatorNode "-" (NumberNode 0)
               (OperatorNode "*" (NumberNode 5) (NumberNode 3))).
Proof.
  assert (H : written_tree (OperatorNode "*" (NumberNode 5) (NumberNode 3))).
  { simpl. repeat split; try reflexivity; lia. }
  split; [exact H|]. split; [reflexivity|].
  exact (leading_sign_is_an_operation_on_zero _ "-"%char H eq_refl).
Defined.

Section Printed.

Lemma format_int_nonneg : forall n,
  0 <= n -> format_int n = decimal_digits 10 n [].
Proof.
  intros n Hn. unfold format_int.
  destruct (Z.ltb_spec n 0); [lia|reflexivity].
Qed.

Lemma answer_printed_number : forall n,
  0 <= n < 2 ^ 31 -> answer (format_int n) = Prints n.
Proof.
  intros n Hn.
  assert (Ht : written_tree (NumberNode n)) by exact Hn.
  pose proof (show_token_chars (NumberNode n) 0 Ht) as Htok.
  cbn [show] in Htok.
  destruct (format_int_digits n Hn) as (_ & _ & Hlen & _).
  rewrite <- (format_int_nonneg n) in Hlen by lia.
  rewrite (tokenize_text _ Htok) by (unfold MSG_SIZE; lia).
  replace (parse (format_int n)) with (Done (NumberNode n)); [reflexivity|].
  symmetry. rewrite <- (app_nil_r (format_int n)).
  apply (parse_read_back (show 0 (NumberNode n)));
    [apply (show_read_back _ Ht)|exact I|].
  rewrite app_nil_r. now apply token_chars_no_nul.
Qed.

Lemma answer_printed_negative : forall n,
  0 < n < 2 ^ 31 -> answer (format_int (- n)) = Prints (- n).
Proof.
  intros n Hn.
  assert (Ht : written_tree (NumberNode n)) by (simpl; lia).
  assert (Htext : format_int (- n) = "-"%char :: show 1 (NumberNode n)).
  { cbn [show]. rewrite (format_int_nonneg n) by lia. unfold format_int.
    destruct (Z.ltb_spec (- n) 0); [|lia]. now rewrite Z.opp_involutive. }
  assert (Htok : Forall (fun c => is_token_char c = true)
                   ("-"%char :: show 1 (NumberNode n))).
  { constructor; [reflexivity|now apply show_token_chars]. }
  destruct (format_int_digits n) as (_ & _ & Hlen & _); [lia|].
  rewrite Htext. rewrite (tokenize_text _ Htok).
  2:{ cbn [show length]. rewrite (format_int_nonneg n) by lia.
      unfold MSG_SIZE. lia. }
  replace (parse ("-"%char :: show 1 (NumberNode n)))
    with (Done (OperatorNode "-" (NumberNode 0) (NumberNode n))).
  - cbn. rewrite wrap_int_id; [reflexivity|]. unfold in_int. lia.
  - symmetry. rewrite <- (app_nil_r ("-"%char :: show 1 (NumberNode n))).
    apply parse_read_back; [|exact I|].
    + apply sum_of_missing_operand; [apply (show_read_back _ Ht)|reflexivity].
    + rewrite app_nil_r. now apply token_chars_no_nul.
Qed.

End Printed.

(** X17: the program reads its own answers.  The text it prints for a
    value, typed back as a line, is answered with the same value: for every
    [int] except [INT_MIN], negative ones included, although the grammar
    has no negative numbers. *)
Theorem printed_value_is_read_back : forall val,
  - 2 ^ 31 < val < 2 ^ 31 ->
  answer (format_int val) = Prints val.
Proof.
  intros val Hval.
  destruct (Z.lt_ge_cases val 0) as [Hneg|Hpos].
  - replace val with (- (- val)) by lia.
    apply answer_printed_negative. lia.
  - apply answer_printed_number. lia.
Qed.

Lemma printed_value_is_read_back_witness :
  - 2 ^ 31 < -2147483647 < 2 ^ 31
  /\ format_int (-2147483647) = line "-2147483647"
  /\ answer (line "-2147483647") = Prints (-2147483647).
Proof.
  assert (H : - 2 ^ 31 < -2147483647 < 2 ^ 31) by (split; reflexivity).
  split; [exact H|]. split; [reflexivity|].
  exact (printed_value_is_read_back _ H).
Defined.

(** * From the keyboard to the answer *)

Section EndToEnd.

Lemma answer_exact : forall t,
  written_tree t -> fits_int t ->
  Z.of_nat (length (show 0 t)) < MSG_SIZE ->
  answer (show 0 t) = Prints (exact t).
Proof.
  intros t Ht Hfit Hlen.
  pose proof (show_token_chars t 0 Ht) as Htok.
  rewrite (tokenize_text _ Htok Hlen).
  replace (parse (show 0 t)) with (Done t).
  - now rewrite (calculate_exact t Hfit).
  - symmetry. rewrite <- (app_nil_r (show 0 t)).
    apply parse_read_back; [apply (show_read_back t Ht)|exact I|].
    rewrite app_nil_r. now apply token_chars_no_nul.
Qed.

Lemma answer_cstring : forall m, answer m = answer (cstring m).
Proof.
  intro m. unfold answer, tokenize.
  now rewrite (cstring_fixed _ (cstring_no_nul m)).
Qed.

Lemma token_char_not_terminator : forall c,
  is_token_char c = true -> is_terminator c = false.
Proof. intros [[] [] [] [] [] [] [] []] H; try discriminate H; reflexivity. Qed.

Lemma decimal_digits_no_nul : forall n,
  0 <= n <= 2 ^ 31 -> Forall (fun c => c <> NUL) (decimal_digits 10 n []).
Proof.
  intros n Hn.
  destruct (decimal_digits_spec 9 n []) as (d & Hrun & Hdig & _).
  { split; [lia|]. apply Z.le_lt_trans with (2 ^ 31); [lia|reflexivity]. }
  rewrite Hrun, app_nil_r.
  eapply Forall_impl; [|exact Hdig]. intros c Hc. now apply isdigit_facts.
Qed.

Lemma format_int_no_nul : forall val,
  in_int val -> Forall (fun c => c <> NUL) (format_int val).
Proof.
  intros val [Hlo Hhi]. unfold format_int.
  destruct (Z.ltb_spec val 0).
  - constructor; [discriminate|]. apply decimal_digits_no_nul. lia.
  - apply decimal_digits_no_nul. lia.
Qed.

Lemma show_not_empty : forall t level, show level t <> [].
Proof.
  intros [val|type l r] level; cbn [show].
  - unfold format_int. destruct (val <? 0); [discriminate|].
    cbn [decimal_digits]. destruct (val / 10 =? 0); [discriminate|].
    cbn [decimal_digits].
    repeat match goal with
           | |- context [if ?b then _ else _] => destruct b; [discriminate|]
           end.
    discriminate.
  - destruct (is_additive type);
      [destruct level as [|k]|destruct level as [|[|k]]];
      try discriminate; destruct (show 0 l); destruct (show 1 l); discriminate.
Qed.

(** A line typed on an empty buffer and ended by a line end, when the
    line is the text of a tree that fits the buffer, arrives as one
    message that holds that text. *)
Lemma serial_delivers_text : forall x t,
  Forall (fun c => is_token_char c = true) x -> x <> [] ->
  Z.of_nat (length x) < MSG_SIZE ->
  is_terminator t = true ->
  exists m,
    uart_msgq (serial_cb true true (x ++ [t]) uart_reset) = [m]
    /\ cstring m = x.
Proof.
  intros x t Hx Hne Hlen Ht.
  destruct x as [|c l]; [contradiction|].
  assert (Hl : Forall (fun c => is_terminator c = false) l).
  { inversion Hx as [|? ? _ Hl]; subst.
    eapply Forall_impl; [|exact Hl]. apply token_char_not_terminator. }
  destruct (serial_line uart_reset c l t uart_reset_ok eq_refl Hl Ht)
    as (m & Hrun & _ & Hstr).
  exists m. unfold serial_cb. cbn [negb]. cbn [app]. rewrite Hrun.
  split; [reflexivity|].
  rewrite Hstr, firstn_all2 by (unfold MSG_SIZE in *; lia).
  apply cstring_fixed. now apply token_chars_no_nul.
Qed.

End EndToEnd.

(** X18: the calculator is right on sums, differences and products.  For
    an expression built with [+], [-] and [*] on numbers from 0 to
    [INT_MAX], whose value and intermediate values fit an [int] and whose
    text fits the buffer, the turn prints the value of the expression in
    the integers. *)
Theorem sums_and_products_are_exact : forall t,
  written_tree t -> fits_int t ->
  Z.of_nat (length (show 0 t)) < MSG_SIZE ->
  answer (show 0 t) = Prints (exact t).
Proof. exact answer_exact. Qed.

Lemma sums_and_products_are_exact_witness :
  written_tree (OperatorNode "*" (OperatorNode "-" (NumberNode 2) (NumberNode 10))
                  (OperatorNode "+" (NumberNode 3) (NumberNode 4)))
  /\ fits_int (OperatorNode "*" (OperatorNode "-" (NumberNode 2) (NumberNode 10))
                 (OperatorNode "+" (NumberNode 3) (NumberNode 4)))
  /\ Z.of_nat (length (line "(2-10)*(3+4)")) < MSG_SIZE
  /\ answer (line "(2-10)*(3+4)") = Prints (-56).
Proof.
  assert (H1 : written_tree
                 (OperatorNode "*" (OperatorNode "-" (NumberNode 2) (NumberNode 10))
                    (OperatorNode "+" (NumberNode 3) (NumberNode 4)))).
  { simpl. repeat split; try reflexivity; lia. }
  assert (H2 : fits_int
                 (OperatorNode "*" (OperatorNode "-" (NumberNode 2) (NumberNode 10))
                    (OperatorNode "+" (NumberNode 3) (NumberNode 4)))).
  { vm_compute. repeat split; discriminate. }
  assert (H3 : Z.of_nat (length (line "(2-10)*(3+4)")) < MSG_SIZE) by reflexivity.
  split; [exact H1|]. split; [exact H2|]. split; [exact H3|].
  exact (sums_and_products_are_exact _ H1 H2 H3).
Defined.

(** X19: from the keyboard to the answer.  After a reset, when the text
    of such an expression arrives on the UART followed by [CR] or [LF],
    [serial_cb] queues one message and the loop of [main] sends, for it,
    the text, a space, the value in decimal and [CR LF], and then waits
    for the next message. *)
Theorem typed_expression_is_answered : forall t e,
  written_tree t -> fits_int t ->
  Z.of_nat (length (show 0 t)) < MSG_SIZE ->
  is_terminator e = true ->
  main_loop (uart_msgq (serial_cb true true (show 0 t ++ [e]) uart_reset))
  = (show 0 t ++ " "%char :: format_int (exact t) ++ [CR; LF], Waiting).
Proof.
  intros t e Ht Hfit Hlen He.
  pose proof (show_token_chars t 0 Ht) as Htok.
  destruct (serial_delivers_text (show 0 t) e Htok (show_not_empty t 0) Hlen He)
    as (m & -> & Hm).
  cbn [main_loop].
  destruct (strcmp EXIT m =? 0) eqn:Eexit.
  { apply strcmp_exit in Eexit. rewrite Hm in Eexit. rewrite Eexit in Htok.
    inversion Htok as [|? ? Hc _]. discriminate Hc. }
  rewrite (answer_cstring m), Hm, (answer_exact t Ht Hfit Hlen).
  unfold print_uart, sprintf_result. rewrite Hm.
  assert (Hval : in_int (exact t)).
  { destruct t; simpl in Hfit; [exact Hfit|tauto]. }
  rewrite (cstring_fixed (format_int (exact t) ++ [CR; LF])).
  - change (cstring [" "%char]) with [" "%char].
    rewrite app_nil_r, <- app_assoc. reflexivity.
  - apply Forall_app. split; [now apply format_int_no_nul|].
    repeat constructor; discriminate.
Qed.

Lemma typed_expression_is_answered_witness :
  written_tree (OperatorNode "+" (NumberNode 2)
                  (OperatorNode "*" (NumberNode 6) (NumberNode 6)))
  /\ fits_int (OperatorNode "+" (NumberNode 2)
                 (OperatorNode "*" (NumberNode 6) (NumberNode 6)))
  /\ Z.of_nat (length (line "2+6*6")) < MSG_SIZE
  /\ is_terminator CR = true
  /\ main_loop (uart_msgq (serial_cb true true (line "2+6*6" ++ [CR]) uart_reset))
     = (line "2+6*6 38" ++ [CR; LF], Waiting).
Proof.
  assert (H1 : written_tree (OperatorNode "+" (NumberNode 2)
                               (OperatorNode "*" (NumberNode 6) (NumberNode 6)))).
  { simpl. repeat split; try reflexivity; lia. }
  assert (H2 : fits_int (OperatorNode "+" (NumberNode 2)
                           (OperatorNode "*" (NumberNode 6) (NumberNode 6)))).
  { vm_compute. repeat split; discriminate. }
  assert (H3 : Z.of_nat (length (line "2+6*6")) < MSG_SIZE) by reflexivity.
  split; [exact H1|]. split; [exact H2|]. split; [exact H3|].
  split; [reflexivity|].
  exact (typed_expression_is_answered _ CR H1 H2 H3 eq_refl).
Defined.
